(** * govault: a byte-bounded LRU cache

    A shallow embedding of [govault.go] (package [govault]) and of the
    size estimator of [govault/cache.go], together with the properties
    stated about them. The copy of [govault.go] with exported field names
    ([Store], [EvictList], [MaxSize], [CurrentSize]) is the same code.

    Conventions of the embedding.
    - [int64] values are integers of [Z] with the two's-complement
      wrap-around of Go written out ([Int64.wrap]).
    - A call either returns, panics, or is still running when the step
      budget given to it is used up ([outcome]); a call that is still
      running for every budget never returns.
    - [reflect.Value] is a tree of what the reflection API lets
      [calculateSize] observe; pointers go through a memory, so that
      self-referential values exist.
    - The cache keeps the three structures of the source apart: the
      index [store] (a map from keys to list-element pointers), the
      elements those pointers refer to, and the order of the elements
      in [evictList].
    - [sync.Mutex] serialises the public operations; the embedding is
      the sequential behaviour of one operation at a time. *)

From Stdlib Require Import ZArith Ascii String.
From stdpp Require Import base option list gmap strings.

Local Open Scope Z_scope.

Set Warnings "-register-all".
Set Default Proof Using "Type".

(** ** int64 arithmetic *)

Module Int64.

Definition min : Z := - 2 ^ 63.
Definition max : Z := 2 ^ 63 - 1.

(** The value an [int64] holds after a result [z] computed without bound. *)
Definition wrap (z : Z) : Z := (z + 2 ^ 63) mod 2 ^ 64 - 2 ^ 63.

Definition add (a b : Z) : Z := wrap (a + b).
Definition sub (a b : Z) : Z := wrap (a - b).
Definition mul (a b : Z) : Z := wrap (a * b).

Definition inRange (z : Z) : Prop := min ≤ z ≤ max.

(** The sum of a list of [int64]s, accumulated in an [int64]. *)
Definition sum (zs : list Z) : Z := foldr add 0 zs.

(** The same sum without bound. *)
Definition sumZ (zs : list Z) : Z := foldr Z.add 0 zs.

End Int64.

(** ** Results of calls *)

Inductive outcome (A : Type) : Type :=
| Done (a : A)   (* the call returns [a] *)
| Panic          (* the call panics *)
| OutOfFuel.     (* the call has not returned within the step budget *)

Arguments Done {A} a.
Arguments Panic {A}.
Arguments OutOfFuel {A}.

#[global] Instance outcome_ret : MRet outcome := λ A a, Done a.

#[global] Instance outcome_bind : MBind outcome := λ A B f x,
  match x with
  | Done a => f a
  | Panic => Panic
  | OutOfFuel => OutOfFuel
  end.

#[global] Instance outcome_fmap : FMap outcome := λ A B f x,
  match x with
  | Done a => Done (f a)
  | Panic => Panic
  | OutOfFuel => OutOfFuel
  end.

(** [for _, x := range xs { size = body x size }] *)
Fixpoint forEach {A : Type} (body : A → Z → outcome Z) (xs : list A) (size : Z)
    : outcome Z :=
  match xs with
  | [] => Done size
  | x :: xs' => size' ← body x size; forEach body xs' size'
  end.

(** ** The part of package [reflect] that [calculateSize] uses *)

Module reflect.

Inductive Kind : Set :=
| Invalid | Bool
| Int | Int8 | Int16 | Int32 | Int64
| Uint | Uint8 | Uint16 | Uint32 | Uint64 | Uintptr
| Float32 | Float64 | Complex64 | Complex128
| Array | Chan | Func | Interface | Map | Ptr | Slice | String | Struct
| UnsafePointer.

(** Kinds whose values [calculateSize] does not look into. *)
Inductive Plain : Set :=
| PBool
| PInt | PInt8 | PInt16 | PInt32 | PInt64
| PUint | PUint8 | PUint16 | PUint32 | PUint64 | PUintptr
| PFloat32 | PFloat64 | PComplex64 | PComplex128
| PChan | PFunc | PUnsafePointer.

Definition Plain_Kind (p : Plain) : Kind :=
  match p with
  | PBool => Bool
  | PInt => Int | PInt8 => Int8 | PInt16 => Int16 | PInt32 => Int32
  | PInt64 => Int64
  | PUint => Uint | PUint8 => Uint8 | PUint16 => Uint16 | PUint32 => Uint32
  | PUint64 => Uint64 | PUintptr => Uintptr
  | PFloat32 => Float32 | PFloat64 => Float64
  | PComplex64 => Complex64 | PComplex128 => Complex128
  | PChan => Chan | PFunc => Func | PUnsafePointer => UnsafePointer
  end.

(** Addresses of the variables that pointers refer to. *)
Definition addr := positive.

(** What reflection shows of a Go value.
    - [VZero] is the zero [reflect.Value], which [reflect.ValueOf]
      returns for a nil interface.
    - [VPtr None] is a nil pointer, [VPtr (Some a)] points to the
      variable at [a].
    - [VIface None] is a nil interface, [VIface (Some x)] holds [x].
    - [VSlice cap xs] has capacity [cap] and the [length xs] elements
      [xs]; a nil slice is [VSlice 0 []].
    - [VMap kvs] lists each key of [MapKeys] with what [MapIndex]
      returns for it. *)
Inductive Value : Type :=
| VZero
| VPlain (p : Plain)
| VPtr (target : option addr)
| VIface (dyn : option Value)
| VString (s : string)
| VSlice (cap : Z) (elems : list Value)
| VMap (kvs : list (Value * Value))
| VStruct (fields : list Value)
| VArray (elems : list Value).

Abbreviation Memory := (gmap addr Value).

Definition Kind_of (v : Value) : Kind :=
  match v with
  | VZero => Invalid
  | VPlain p => Plain_Kind p
  | VPtr _ => Ptr
  | VIface _ => Interface
  | VString _ => String
  | VSlice _ _ => Slice
  | VMap _ => Map
  | VStruct _ => Struct
  | VArray _ => Array
  end.

(** [v.IsNil()]. It panics on kinds that have no nil; channels,
    functions, maps, slices and unsafe pointers answer it in Go too, but
    their nil-ness is not recorded here and [calculateSize] asks pointers
    and interfaces only. *)
Definition IsNil (v : Value) : outcome bool :=
  match v with
  | VPtr None | VIface None => Done true
  | VPtr (Some _) | VIface (Some _) => Done false
  | _ => Panic
  end.

(** [v.Elem()]: the variable a pointer points to, the value an interface
    holds; the zero Value for nil; a panic on other kinds. *)
Definition Elem (m : Memory) (v : Value) : outcome Value :=
  match v with
  | VPtr None | VIface None => Done VZero
  | VPtr (Some a) =>
      match m !! a with
      | Some x => Done x
      | None => Panic
      end
  | VIface (Some x) => Done x
  | _ => Panic
  end.

(** [v.String()]: the string itself for kind String; otherwise a
    description of the value, not a panic. *)
Definition String_of (v : Value) : string :=
  match v with
  | VString s => s
  | _ => "<Value>"%string
  end.

(** [v.Len()] and [v.Cap()] panic on kinds without a length or a
    capacity. (Channels have both in Go; they are among the plain values
    here, and [calculateSize] does not ask them.) *)
Definition Len (v : Value) : outcome nat :=
  match v with
  | VString s => Done (String.length s)
  | VSlice _ xs | VArray xs => Done (length xs)
  | VMap kvs => Done (length kvs)
  | _ => Panic
  end.

Definition Cap (v : Value) : outcome Z :=
  match v with
  | VSlice cap _ => Done cap
  | VArray xs => Done (Z.of_nat (length xs))
  | _ => Panic
  end.

(** [v.Index(i)] panics when [i] is out of range. *)
Definition Index (v : Value) (i : nat) : outcome Value :=
  match v with
  | VSlice _ xs | VArray xs =>
      match xs !! i with
      | Some x => Done x
      | None => Panic
      end
  | VString s =>
      match String.get i s with
      | Some _ => Done (VPlain PUint8)
      | None => Panic
      end
  | _ => Panic
  end.

(** [v.MapKeys()], each key with [v.MapIndex(key)]. *)
Definition MapItems (v : Value) : outcome (list (Value * Value)) :=
  match v with
  | VMap kvs => Done kvs
  | _ => Panic
  end.

Definition NumField (v : Value) : outcome nat :=
  match v with
  | VStruct fs => Done (length fs)
  | _ => Panic
  end.

Definition Field (v : Value) (i : nat) : outcome Value :=
  match v with
  | VStruct fs =>
      match fs !! i with
      | Some x => Done x
      | None => Panic
      end
  | _ => Panic
  end.

(** The values one step inside [v]; [None] when a pointer of [v] refers
    to no variable of the memory. *)
Definition children (m : Memory) (v : Value) : option (list Value) :=
  match v with
  | VPtr (Some a) => x ← m !! a; Some [x]
  | VIface (Some x) => Some [x]
  | VSlice _ xs | VStruct xs | VArray xs => Some xs
  | VMap kvs => Some (flat_map (λ kv, [kv.1; kv.2]) kvs)
  | _ => Some []
  end.

(** [v] has fewer than [d] levels of nesting, pointers followed. No [d]
    bounds a value that reaches itself. *)
Fixpoint finiteDepth (d : nat) (m : Memory) (v : Value) : bool :=
  match d with
  | O => false
  | S d' =>
      match children m v with
      | Some xs => forallb (finiteDepth d' m) xs
      | None => false
      end
  end.

(** Every pointer inside [v] refers to a variable of the memory; in a
    running program every pointer that is not nil does. *)
Fixpoint resolves (m : Memory) (v : Value) : bool :=
  match v with
  | VPtr (Some a) => bool_decide (is_Some (m !! a))
  | VIface (Some x) => resolves m x
  | VSlice _ xs | VStruct xs | VArray xs => forallb (resolves m) xs
  | VMap kvs =>
      forallb (λ kv, match kv with (k, x) => resolves m k && resolves m x end)
        kvs
  | _ => true
  end.

(** The same for the variables of the memory themselves. *)
Definition closed (m : Memory) : Prop :=
  ∀ a x, m !! a = Some x → resolves m x = true.

End reflect.

(** ** Package [unsafe]

    [unsafe.Sizeof(x)] is a compile-time constant fixed by the static type
    of [x]; the operand is not evaluated. Every use in [calculateSize] has
    an operand of a fixed type: [v.Pointer()] is a [uintptr], [v.String()]
    a [string], [v.Interface()] and [v.Index(0).Interface()] an empty
    interface. The sizes are those of the 64-bit targets. *)

Module unsafe.
Definition Sizeof_uintptr : Z := 8.
Definition Sizeof_string : Z := 16.
Definition Sizeof_interface : Z := 16.
End unsafe.

(** ** The size estimator of [govault.go] *)

(** [calculateSize]; [fuel] bounds the depth of the recursion. *)
Fixpoint calculateSize (fuel : nat) (m : reflect.Memory) (v : reflect.Value)
    : outcome Z :=
  match fuel with
  | O => OutOfFuel
  | S fuel' =>
      match reflect.Kind_of v with
      | reflect.Ptr | reflect.Interface =>
          isNil ← reflect.IsNil v;
          if (isNil : bool) then Done unsafe.Sizeof_uintptr
          else
            e ← reflect.Elem m v;
            s ← calculateSize fuel' m e;
            Done (Int64.add unsafe.Sizeof_uintptr s)
      | reflect.String =>
          Done (Int64.add unsafe.Sizeof_string
                  (Z.of_nat (String.length (reflect.String_of v))))
      | reflect.Slice =>
          cap ← reflect.Cap v;
          n ← reflect.Len v;
          forEach
            (λ i size,
               x ← reflect.Index v i;
               s ← calculateSize fuel' m x;
               Done (Int64.add size s))
            (seq 0 n)
            (Int64.add unsafe.Sizeof_uintptr
               (Int64.mul cap unsafe.Sizeof_interface))
      | reflect.Map =>
          items ← reflect.MapItems v;
          forEach
            (λ kv size,
               a ← calculateSize fuel' m kv.1;
               b ← calculateSize fuel' m kv.2;
               Done (Int64.add size (Int64.add a b)))
            items
            unsafe.Sizeof_uintptr
      | reflect.Struct =>
          n ← reflect.NumField v;
          forEach
            (λ i size,
               x ← reflect.Field v i;
               s ← calculateSize fuel' m x;
               Done (Int64.add size s))
            (seq 0 n)
            0
      | reflect.Array =>
          n ← reflect.Len v;
          forEach
            (λ i size,
               x ← reflect.Index v i;
               s ← calculateSize fuel' m x;
               Done (Int64.add size s))
            (seq 0 n)
            0
      | _ => Done unsafe.Sizeof_interface
      end
  end.

(** ** The cache of [govault.go] *)

(** Pointers to the elements of the recency list ([*list.Element]). *)
Definition elem := positive.

Section Cache.

(** [Cache[Key comparable, Value any]]. The index needs keys that are
    equal to themselves and hash alike when equal; that is asked of the
    key type here. [ValueOfKey] and [ValueOfValue] are [reflect.ValueOf]
    at the two types, [zero] is the zero value of [Value]. *)
Context {Key Value : Type} `{Countable Key}.
Variable ValueOfKey : Key → reflect.Value.
Variable ValueOfValue : Value → reflect.Value.
Variable zero : Value.

(** [entry]: a key, its value, and the estimated size of both. *)
Record entry : Type := Entry {
  key : Key;
  value : Value;
  size : Z
}.

(** [Cache]. [elems] holds, for each list element ever allocated, the
    entry its [Value] field points to; [evictList] is the order of the
    elements that are in the list, front first. *)
Record Cache : Type := MkCache {
  store : gmap Key elem;
  elems : gmap elem entry;
  evictList : list elem;
  maxSize : Z;
  currSize : Z
}.

(** *** container/list *)

(** [l.PushFront(v)] allocates a new element. *)
Definition newElem (c : Cache) : elem := fresh (dom (elems c)).

(** [l.Remove(e)] does nothing when [e] is not in [l]. *)
Definition Remove (e : elem) (l : list elem) : list elem :=
  filter (λ x, x ≠ e) l.

(** [l.MoveToFront(e)] does nothing when [e] is not in [l]. *)
Definition MoveToFront (e : elem) (l : list elem) : list elem :=
  if decide (e ∈ l) then e :: Remove e l else l.

(** [l.Back()]. *)
Definition Back (l : list elem) : option elem := last l.

(** [e.Value.( *entry[Key, Value])] *)
Definition elemEntry (c : Cache) (e : elem) : outcome entry :=
  match elems c !! e with
  | Some ent => Done ent
  | None => Panic
  end.

(** *** New *)

Definition New (maxMB : Z) : outcome Cache :=
  if decide (maxMB ≤ 0) then Panic
  else Done {| store := ∅;
               elems := ∅;
               evictList := [];
               maxSize := Int64.mul (Int64.mul maxMB 1024) 1024;
               currSize := 0 |}.

(** *** calculateEntrySize *)

Definition calculateEntrySize (fuel : nat) (m : reflect.Memory)
    (k : Key) (v : Value) : outcome Z :=
  keySize ← calculateSize fuel m (ValueOfKey k);
  valueSize ← calculateSize fuel m (ValueOfValue v);
  Done (Int64.add keySize valueSize).

(** *** evict *)

Definition Cache_evict (c : Cache) : outcome Cache :=
  match Back (evictList c) with
  | None => Done c
  | Some e =>
      ent ← elemEntry c e;
      Done {| store := delete (key ent) (store c);
              elems := elems c;
              evictList := Remove e (evictList c);
              maxSize := maxSize c;
              currSize := Int64.sub (currSize c) (size ent) |}
  end.

(** [for c.currSize > c.maxSize { c.evict() }]; [fuel] bounds the number
    of iterations. *)
Fixpoint evictLoop (fuel : nat) (c : Cache) : outcome Cache :=
  if decide (currSize c > maxSize c) then
    match fuel with
    | O => OutOfFuel
    | S fuel' => c' ← Cache_evict c; evictLoop fuel' c'
    end
  else Done c.

(** *** Set *)

(** The two branches of [Set] before the eviction loop. *)
Definition Cache_put (k : Key) (v : Value) (entrySize : Z) (c : Cache)
    : outcome Cache :=
  match store c !! k with
  | Some e =>
      ent ← elemEntry c e;
      let oldSize := size ent in
      Done {| store := store c;
              elems := <[e := {| key := key ent; value := v;
                                 size := entrySize |}]> (elems c);
              evictList := MoveToFront e (evictList c);
              maxSize := maxSize c;
              currSize := Int64.add (Int64.sub (currSize c) oldSize)
                            entrySize |}
  | None =>
      let e := newElem c in
      Done {| store := <[k := e]> (store c);
              elems := <[e := {| key := k; value := v;
                                 size := entrySize |}]> (elems c);
              evictList := e :: evictList c;
              maxSize := maxSize c;
              currSize := Int64.add (currSize c) entrySize |}
  end.

(** [Set]; [fuel] bounds the depth of the size estimation and the number
    of rounds of the eviction loop. *)
Definition Cache_Set (fuel : nat) (m : reflect.Memory) (k : Key) (v : Value)
    (c : Cache) : outcome Cache :=
  entrySize ← calculateEntrySize fuel m k v;
  c' ← Cache_put k v entrySize c;
  evictLoop fuel c'.

(** *** Get *)

Definition Cache_Get (k : Key) (c : Cache) : outcome (Value * bool * Cache) :=
  match store c !! k with
  | Some e =>
      let c' := {| store := store c;
                   elems := elems c;
                   evictList := MoveToFront e (evictList c);
                   maxSize := maxSize c;
                   currSize := currSize c |} in
      ent ← elemEntry c' e;
      Done (value ent, true, c')
  | None => Done (zero, false, c)
  end.

(** *** Delete *)

Definition Cache_Delete (k : Key) (c : Cache) : outcome Cache :=
  match store c !! k with
  | Some e =>
      ent ← elemEntry c e;
      Done {| store := delete k (store c);
              elems := elems c;
              evictList := Remove e (evictList c);
              maxSize := maxSize c;
              currSize := Int64.sub (currSize c) (size ent) |}
  | None => Done c
  end.

(** *** States and runs *)

(** The entries of the recency list, most recently used first. *)
Definition entries (c : Cache) : list entry :=
  omap (λ e, elems c !! e) (evictList c).

(** The running total that the entries of [c] account for. *)
Definition sumSizes (c : Cache) : Z := Int64.sum (size <$> entries c).

(** How index, elements and list fit together:
    no element is twice in the list; every element of the list has an
    entry, and the index sends that entry's key to the element; every
    key of the index is sent to an element of the list whose entry has
    that key; the running total is the sum of the sizes. *)
Record WF (c : Cache) : Prop := {
  wf_nodup : NoDup (evictList c);
  wf_list_store : ∀ e, e ∈ evictList c →
    ∃ ent, elems c !! e = Some ent ∧ store c !! key ent = Some e;
  wf_store_list : ∀ k e, store c !! k = Some e →
    e ∈ evictList c ∧ ∃ ent, elems c !! e = Some ent ∧ key ent = k;
  wf_size : currSize c = sumSizes c
}.

(** A call of a public operation. [Set] comes with the memory its
    arguments live in and with a step budget. *)
Inductive Op : Type :=
| OpSet (fuel : nat) (m : reflect.Memory) (k : Key) (v : Value)
| OpGet (k : Key)
| OpDelete (k : Key).

Definition step (op : Op) (c : Cache) : outcome Cache :=
  match op with
  | OpSet fuel m k v => Cache_Set fuel m k v c
  | OpGet k => r ← Cache_Get k c; Done r.2
  | OpDelete k => Cache_Delete k c
  end.

(** The caches a program can hold: what [New] returned, after any
    sequence of public operations that returned. *)
Inductive reachable : Cache → Prop :=
| reach_New maxMB c : New maxMB = Done c → reachable c
| reach_step op c c' : reachable c → step op c = Done c' → reachable c'.

(** A sequence of public operations, one after the other. *)
Fixpoint runOps (ops : list Op) (c : Cache) : outcome Cache :=
  match ops with
  | [] => Done c
  | op :: ops' => c' ← step op c; runOps ops' c'
  end.

(** *** The operations seen on the sequence of entries

    These describe what [Set], [Get], [Delete] and the eviction loop do
    to [entries]; the lemmas [put_WF], [entries_evictLoop], [entries_Set],
    [Get_spec] and [Delete_spec] prove that the code does so. *)

Definition withoutKey (k : Key) (es : list entry) : list entry :=
  filter (λ x, key x ≠ k) es.

Definition seq_put (k : Key) (v : Value) (s : Z) (es : list entry)
    : list entry :=
  {| key := k; value := v; size := s |} :: withoutKey k es.

Fixpoint seq_evictLoop (fuel : nat) (cap : Z) (es : list entry)
    : outcome (list entry) :=
  if decide (Int64.sum (size <$> es) > cap) then
    match fuel with
    | O => OutOfFuel
    | S fuel' => seq_evictLoop fuel' cap (removelast es)
    end
  else Done es.

Definition seq_find (k : Key) (es : list entry) : option entry :=
  head (filter (λ x, key x = k) es).

Definition seq_touch (k : Key) (es : list entry) : list entry :=
  match seq_find k es with
  | Some ent => ent :: withoutKey k es
  | None => es
  end.

End Cache.

(** ** The size estimator of [govault/cache.go]

    This file differs from [govault.go] in [calculateEntrySize] only: it
    adds [unsafe.Sizeof(key)] and [unsafe.Sizeof(value)], the sizes of the
    two types, and does not look at the values. *)

Module cache_go.

Section Estimator.
Context {Key Value : Type}.
(** [unsafe.Sizeof] at types [Key] and [Value]. *)
Variable Sizeof_Key Sizeof_Value : Z.

Definition calculateEntrySize (k : Key) (v : Value) : Z :=
  let keySize := Sizeof_Key in
  let valueSize := Sizeof_Value in
  Int64.add keySize valueSize.
End Estimator.

(** [Set] of [govault/cache.go]: the text of [Set] in [govault.go], with
    the estimator above. [New], [Get], [evict] and [Delete] are the same
    text in both files. *)
Section Operations.
Context {Key Value : Type} `{Countable Key}.
Variable Sizeof_Key Sizeof_Value : Z.
Variable zero : Value.

Definition Cache_Set (fuel : nat) (k : Key) (v : Value)
    (c : Cache (Key := Key) (Value := Value)) : outcome Cache :=
  let entrySize := calculateEntrySize Sizeof_Key Sizeof_Value k v in
  c' ← Cache_put k v entrySize c;
  evictLoop fuel c'.

Inductive Op : Type :=
| OpSet (fuel : nat) (k : Key) (v : Value)
| OpGet (k : Key)
| OpDelete (k : Key).

Definition step (op : Op) (c : Cache) : outcome Cache :=
  match op with
  | OpSet fuel k v => Cache_Set fuel k v c
  | OpGet k => r ← Cache_Get zero k c; Done r.2
  | OpDelete k => Cache_Delete k c
  end.

Inductive reachable : Cache → Prop :=
| reach_New maxMB c : New maxMB = Done c → reachable c
| reach_step op c c' : reachable c → step op c = Done c' → reachable c'.
End Operations.

End cache_go.

(** ** Go types used in the examples *)

Module Examples.

(** [[]int]: its capacity and its elements. *)
Record IntSlice : Type := { slice_cap : Z; slice_elems : list Z }.

Definition ValueOf_string (s : string) : reflect.Value := reflect.VString s.

Definition ValueOf_IntSlice (x : IntSlice) : reflect.Value :=
  reflect.VSlice (slice_cap x)
    ((λ _, reflect.VPlain reflect.PInt) <$> slice_elems x).

(** [make([]int, 0, n)] *)
Definition make0 (n : Z) : IntSlice := {| slice_cap := n; slice_elems := [] |}.

Definition nilSlice : IntSlice := make0 0.

(** [type Node struct { next *Node }]; a [*Node] is nil or an address. *)
Definition ValueOf_NodePtr (p : option reflect.addr) : reflect.Value :=
  reflect.VPtr p.

(** The memory after [n := &Node{}; n.next = n], with [n] at address 1. *)
Definition selfLoop : reflect.Memory :=
  {[ 1%positive := reflect.VStruct [reflect.VPtr (Some 1%positive)] ]}.

(** [[]int{1, 2, 3, 4, 5}] *)
Definition oneToFive : IntSlice :=
  {| slice_cap := 5; slice_elems := [1; 2; 3; 4; 5] |}.

(** The cache after [govault.New[string, []int](10)]. *)
Definition cache0 : Cache (Key := string) (Value := IntSlice) :=
  {| store := ∅; elems := ∅; evictList := [];
     maxSize := 10485760; currSize := 0 |}.

(** The cache after [govault.New[string, []int](1)]. *)
Definition cache1MB : Cache (Key := string) (Value := IntSlice) :=
  {| store := ∅; elems := ∅; evictList := [];
     maxSize := 1048576; currSize := 0 |}.

(** The cache after [govault.New[string, []int](1 << 43)]. *)
Definition cacheOverflow : Cache (Key := string) (Value := IntSlice) :=
  {| store := ∅; elems := ∅; evictList := [];
     maxSize := -9223372036854775808; currSize := 0 |}.

(** The cache after [cache.Set("key-1", []int{1, 2, 3, 4, 5})]. *)
Definition cache1 : Cache (Key := string) (Value := IntSlice) :=
  {| store := {[ "key-1"%string := 1%positive ]};
     elems := {[ 1%positive :=
                 {| key := "key-1"%string; value := oneToFive;
                    size := 189 |} ]};
     evictList := [1%positive];
     maxSize := 10485760; currSize := 189 |}.

(** The cache after [cache.Set("key-2", []int{1, 2, 3, 4, 5})] on top. *)
Definition cache2 : Cache (Key := string) (Value := IntSlice) :=
  {| store := {[ "key-1"%string := 1%positive; "key-2"%string := 2%positive ]};
     elems := {[ 1%positive :=
                 {| key := "key-1"%string; value := oneToFive; size := 189 |};
                 2%positive :=
                 {| key := "key-2"%string; value := oneToFive; size := 189 |} ]};
     evictList := [2%positive; 1%positive];
     maxSize := 10485760; currSize := 378 |}.

(** The cache after [New[string, []int](1)] and
    [Set("key-1", []int{1, 2, 3, 4, 5})] of [govault/cache.go]: the entry
    is recorded with 16 + 24, the sizes of a string and of a slice header. *)
Definition cacheGo1 : Cache (Key := string) (Value := IntSlice) :=
  {| store := {[ "key-1"%string := 1%positive ]};
     elems := {[ 1%positive :=
                 {| key := "key-1"%string; value := oneToFive; size := 40 |} ]};
     evictList := [1%positive];
     maxSize := 1048576; currSize := 40 |}.

(** The cache after [govault.New[string, []int](1)] and
    [Set("a", make([]int, 0, 40000))]: the entry is estimated at
    16 + 1 for the key and 8 + 16 * 40000 for the slice. *)
Definition cacheA : Cache (Key := string) (Value := IntSlice) :=
  {| store := {[ "a"%string := 1%positive ]};
     elems := {[ 1%positive :=
                 {| key := "a"%string; value := make0 40000;
                    size := 640025 |} ]};
     evictList := [1%positive];
     maxSize := 1048576; currSize := 640025 |}.

(** The state inside [Set("b", make([]int, 0, 40000))] on top of that,
    after the insertion and before the loop: the total is above the
    capacity. *)
Definition cacheAB : Cache (Key := string) (Value := IntSlice) :=
  {| store := {[ "a"%string := 1%positive; "b"%string := 2%positive ]};
     elems := {[ 1%positive :=
                 {| key := "a"%string; value := make0 40000;
                    size := 640025 |};
                 2%positive :=
                 {| key := "b"%string; value := make0 40000;
                    size := 640025 |} ]};
     evictList := [2%positive; 1%positive];
     maxSize := 1048576; currSize := 1280050 |}.

(** The cache when that [Set] returns: "a" has been evicted. The list
    element of "a" is out of the list and of the index. *)
Definition cacheB : Cache (Key := string) (Value := IntSlice) :=
  {| store := {[ "b"%string := 2%positive ]};
     elems := {[ 1%positive :=
                 {| key := "a"%string; value := make0 40000;
                    size := 640025 |};
                 2%positive :=
                 {| key := "b"%string; value := make0 40000;
                    size := 640025 |} ]};
     evictList := [2%positive];
     maxSize := 1048576; currSize := 640025 |}.

(** [type Frame struct { node *Node; data []int }] *)
Record Frame : Type :=
  { frame_node : option reflect.addr; frame_data : IntSlice }.

Definition ValueOf_Frame (x : Frame) : reflect.Value :=
  reflect.VStruct [reflect.VPtr (frame_node x);
                   ValueOf_IntSlice (frame_data x)].

(** The zero [Frame]. *)
Definition Frame0 : Frame := {| frame_node := None; frame_data := nilSlice |}.

(** The memory after [n := &Node{}], with [n] at address 1. *)
Definition oneNode : reflect.Memory :=
  {[ 1%positive := reflect.VStruct [reflect.VPtr None] ]}.

(** [Frame{node: n, data: make([]int, 0, 40000)}] *)
Definition frame1 : Frame :=
  {| frame_node := Some 1%positive; frame_data := make0 40000 |}.

(** The cache after [govault.New[string, Frame](1)] and [Set("a", frame1)]:
    the entry is estimated at 16 + 1 for the key, 8 + 8 for the pointer
    and the node, and 8 + 16 * 40000 for the slice. *)
Definition cacheFrame : Cache (Key := string) (Value := Frame) :=
  {| store := {[ "a"%string := 1%positive ]};
     elems := {[ 1%positive :=
                 {| key := "a"%string; value := frame1; size := 640041 |} ]};
     evictList := [1%positive];
     maxSize := 1048576; currSize := 640041 |}.

(** [fmt.Println(label, found)] *)
Definition Println (label : string) (found : bool) : string :=
  (label ++ " " ++ (if found then "true" else "false"))%string.

(** [main] of the example program that creates the cache with
    [govault.New[string, string](3)], as the lines it prints. The constant
    [oneMBText] is declared in a file that is not at hand and is taken as
    an argument. *)
Definition main (oneMBText : string) (fuel : nat) : outcome (list string) :=
  cache ← New (Key := string) (Value := string) 3;
  cache ← Cache_Set ValueOf_string ValueOf_string fuel ∅ "a" oneMBText cache;
  cache ← Cache_Set ValueOf_string ValueOf_string fuel ∅ "b" oneMBText cache;
  cache ← Cache_Set ValueOf_string ValueOf_string fuel ∅ "c" oneMBText cache;
  '(_, found1, cache) ← Cache_Get ""%string "a"%string cache;
  '(_, found2, cache) ← Cache_Get ""%string "b"%string cache;
  '(_, found3, cache) ← Cache_Get ""%string "c"%string cache;
  cache ← Cache_Set ValueOf_string ValueOf_string fuel ∅ "d" oneMBText cache;
  '(_, found4, cache) ← Cache_Get ""%string "d"%string cache;
  '(_, found5, cache) ← Cache_Get ""%string "a"%string cache;
  Done [Println "a:" found1; Println "b:" found2; Println "c:" found3;
        Println "d:" found4; Println "a:" found5].

(** [govault.New[string, []int](maxMB)] followed by [Set]s. *)
Definition setAll (fuel : nat) (kvs : list (string * IntSlice))
    (c : outcome (Cache (Key := string) (Value := IntSlice)))
    : outcome Cache :=
  foldl (λ oc kv, c ← oc;
           Cache_Set ValueOf_string ValueOf_IntSlice fuel ∅ kv.1 kv.2 c)
    c kvs.

End Examples.

(** * Properties *)

(** ** int64 arithmetic *)

Lemma wrap_inRange z : Int64.inRange (Int64.wrap z).
Proof.
  unfold Int64.inRange, Int64.wrap, Int64.min, Int64.max.
  pose proof (Z.mod_pos_bound (z + 2 ^ 63) (2 ^ 64)). lia.
Qed.

Lemma wrap_id z : Int64.inRange z → Int64.wrap z = z.
Proof.
  unfold Int64.inRange, Int64.wrap, Int64.min, Int64.max. intros Hz.
  rewrite Z.mod_small; lia.
Qed.

Lemma wrap_add_l a b : Int64.wrap (Int64.wrap a + b) = Int64.wrap (a + b).
Proof.
  unfold Int64.wrap.
  replace ((a + 2 ^ 63) mod 2 ^ 64 - 2 ^ 63 + b + 2 ^ 63)
    with ((a + 2 ^ 63) mod 2 ^ 64 + b) by lia.
  rewrite Zplus_mod_idemp_l. f_equal. f_equal. lia.
Qed.

Lemma wrap_add_r a b : Int64.wrap (a + Int64.wrap b) = Int64.wrap (a + b).
Proof. rewrite Z.add_comm, wrap_add_l. f_equal. lia. Qed.

Lemma wrap_sub_l a b : Int64.wrap (Int64.wrap a - b) = Int64.wrap (a - b).
Proof. unfold Z.sub. apply wrap_add_l. Qed.

Lemma wrap_shift z q : Int64.wrap (z + q * 2 ^ 64) = Int64.wrap z.
Proof.
  unfold Int64.wrap.
  replace (z + q * 2 ^ 64 + 2 ^ 63) with (z + 2 ^ 63 + q * 2 ^ 64) by lia.
  by rewrite Z_mod_plus_full.
Qed.

Lemma wrap_mul_l a b : Int64.wrap (Int64.wrap a * b) = Int64.wrap (a * b).
Proof.
  assert (Hq : ∃ q, Int64.wrap a = a + q * 2 ^ 64).
  { exists (- ((a + 2 ^ 63) / 2 ^ 64)). unfold Int64.wrap.
    pose proof (Z_div_mod_eq_full (a + 2 ^ 63) (2 ^ 64)). lia. }
  destruct Hq as [q ->].
  replace ((a + q * 2 ^ 64) * b) with (a * b + (q * b) * 2 ^ 64) by lia.
  apply wrap_shift.
Qed.

Lemma wrap_wrap z : Int64.wrap (Int64.wrap z) = Int64.wrap z.
Proof. apply wrap_id, wrap_inRange. Qed.

Lemma sum_wrap zs : Int64.sum zs = Int64.wrap (Int64.sumZ zs).
Proof.
  induction zs as [|z zs IH]; simpl; [done|].
  unfold Int64.add. by rewrite IH, wrap_add_r.
Qed.

Lemma sum_cons z zs :
  Int64.sum (z :: zs) = Int64.wrap (z + Int64.sumZ zs).
Proof. by rewrite sum_wrap. Qed.

Lemma sum_exact zs :
  Int64.inRange (Int64.sumZ zs) → Int64.sum zs = Int64.sumZ zs.
Proof. intros. rewrite sum_wrap. by apply wrap_id. Qed.

Lemma sumZ_cons x xs : Int64.sumZ (x :: xs) = x + Int64.sumZ xs.
Proof. done. Qed.

Lemma sumZ_app xs ys : Int64.sumZ (xs ++ ys) = Int64.sumZ xs + Int64.sumZ ys.
Proof. induction xs as [|x xs IH]; simpl; lia. Qed.

(** ** Results of calls *)

Lemma bind_Done {A B} (f : A → outcome B) (x : outcome A) (b : B) :
  x ≫= f = Done b ↔ ∃ a, x = Done a ∧ f a = Done b.
Proof.
  destruct x; simpl; split; try (intros (? & ? & ?)); try done; eauto.
  by simplify_eq.
Qed.

Lemma fmap_Done {A B} (f : A → B) (x : outcome A) (b : B) :
  f <$> x = Done b ↔ ∃ a, x = Done a ∧ f a = b.
Proof.
  destruct x; simpl; split; try (intros (? & ? & ?)); try done.
  - intros [= <-]. eauto.
  - by simplify_eq.
Qed.

Lemma fmap_OutOfFuel {A B} (f : A → B) (x : outcome A) :
  f <$> x = OutOfFuel ↔ x = OutOfFuel.
Proof. by destruct x. Qed.

Lemma bind_not_OutOfFuel {A B} (f : A → outcome B) (x : outcome A) :
  x ≫= f ≠ OutOfFuel → x ≠ OutOfFuel.
Proof. by destruct x. Qed.

(** ** The size estimator *)

Lemma forEach_mono {A} (b b' : A → Z → outcome Z) xs acc :
  (∀ x s, b x s ≠ OutOfFuel → b' x s = b x s) →
  forEach b xs acc ≠ OutOfFuel →
  forEach b' xs acc = forEach b xs acc.
Proof.
  intros Hb. revert acc.
  induction xs as [|x xs IH]; intros acc Hne; simpl in *; [done|].
  rewrite Hb by (by eapply bind_not_OutOfFuel).
  destruct (b x acc); simpl in *; auto.
Qed.

(** A call that returned or panicked does the same with a larger budget. *)
Lemma calculateSize_mono f f' m v :
  (f ≤ f')%nat →
  calculateSize f m v ≠ OutOfFuel →
  calculateSize f' m v = calculateSize f m v.
Proof.
  revert f' v. induction f as [|f IH]; intros f' v Hle Hne; [done|].
  destruct f' as [|f']; [lia|].
  assert (Hrec : ∀ x, calculateSize f m x ≠ OutOfFuel →
                      calculateSize f' m x = calculateSize f m x)
    by (intros; apply IH; [lia|done]).
  assert (Hstep : ∀ (ox : outcome reflect.Value) (size : Z),
    (x ← ox; s ← calculateSize f m x; Done (Int64.add size s)) ≠ OutOfFuel →
    (x ← ox; s ← calculateSize f' m x; Done (Int64.add size s))
    = (x ← ox; s ← calculateSize f m x; Done (Int64.add size s))).
  { intros [x| |] size Hx; simpl in *; try done.
    rewrite Hrec; [done|]. by eapply bind_not_OutOfFuel. }
  simpl in *.
  destruct (reflect.Kind_of v); try done.
  - (* Array *)
    destruct (reflect.Len v); simpl in *; try done.
    apply forEach_mono; [|done]. intros; by apply Hstep.
  - (* Interface *)
    destruct (reflect.IsNil v) as [[]| |]; simpl in *; try done.
    destruct (reflect.Elem m v); simpl in *; try done.
    rewrite Hrec; [done|]. by eapply bind_not_OutOfFuel.
  - (* Map *)
    destruct (reflect.MapItems v); simpl in *; try done.
    apply forEach_mono; [|done]. intros kv size Hkv.
    assert (Hk : calculateSize f m kv.1 ≠ OutOfFuel)
      by (by eapply bind_not_OutOfFuel).
    rewrite (Hrec _ Hk).
    destruct (calculateSize f m kv.1); simpl in *; try done.
    rewrite Hrec; [done|]. by eapply bind_not_OutOfFuel.
  - (* Ptr *)
    destruct (reflect.IsNil v) as [[]| |]; simpl in *; try done.
    destruct (reflect.Elem m v); simpl in *; try done.
    rewrite Hrec; [done|]. by eapply bind_not_OutOfFuel.
  - (* Slice *)
    destruct (reflect.Cap v); simpl in *; try done.
    destruct (reflect.Len v); simpl in *; try done.
    apply forEach_mono; [|done]. intros; by apply Hstep.
  - (* Struct *)
    destruct (reflect.NumField v); simpl in *; try done.
    apply forEach_mono; [|done]. intros; by apply Hstep.
Qed.

Lemma calculateSize_mono_Done f f' m v z :
  (f ≤ f')%nat → calculateSize f m v = Done z → calculateSize f' m v = Done z.
Proof.
  intros Hle Hz. rewrite (calculateSize_mono f f') by (done || by rewrite Hz).
  done.
Qed.

Lemma forEach_total {A} (body : A → Z → outcome Z) xs :
  (∀ x acc, x ∈ xs → ∃ z, body x acc = Done z) →
  ∀ acc, ∃ z, forEach body xs acc = Done z.
Proof.
  induction xs as [|x xs IH]; intros Hbody acc; simpl; [eauto|].
  destruct (Hbody x acc) as [z ->]; [left|]. simpl.
  apply IH. intros; apply Hbody. by right.
Qed.

Lemma forallb_elem_of {A} (f : A → bool) xs x :
  forallb f xs = true → x ∈ xs → f x = true.
Proof. rewrite forallb_forall, list_elem_of_In. auto. Qed.

Lemma seq_lookup_elem {A} (xs : list A) i :
  i ∈ seq 0 (length xs) → ∃ x, xs !! i = Some x ∧ x ∈ xs.
Proof.
  rewrite elem_of_seq. intros [_ Hi].
  destruct (lookup_lt_is_Some_2 xs i) as [x Hx]; [lia|].
  exists x. split; [done|]. by eapply list_elem_of_lookup_2.
Qed.

(** On a value of finite depth the estimator returns, within a budget equal
    to the depth. *)
Lemma calculateSize_finiteDepth d m v :
  reflect.finiteDepth d m v = true → ∃ z, calculateSize d m v = Done z.
Proof.
  revert v. induction d as [|d IH]; intros v Hv; [done|].
  simpl in Hv.
  destruct (reflect.children m v) as [cs|] eqn:Hcs; [|done].
  assert (Hc : ∀ x, x ∈ cs → ∃ z, calculateSize d m x = Done z)
    by (intros x Hx; apply IH; by eapply forallb_elem_of).
  assert (Hidx : ∀ xs (get : nat → outcome reflect.Value) acc,
    (∀ i x, xs !! i = Some x → get i = Done x) →
    (∀ x, x ∈ xs → x ∈ cs) →
    ∃ z, forEach (λ i size, x ← get i; s ← calculateSize d m x;
                            Done (Int64.add size s))
           (seq 0 (length xs)) acc = Done z).
  { intros xs get acc Hget Hsub. apply forEach_total.
    intros i a Hi. apply seq_lookup_elem in Hi as (x & Hx & Hin).
    rewrite (Hget _ _ Hx). simpl.
    destruct (Hc x) as [z ->]; [auto|]. simpl. eauto. }
  destruct v as [|p|[a|]|[x|]|s|cap xs|kvs|fs|xs]; simpl in *.
  - eauto.
  - destruct p; simpl; eauto.
  - destruct (m !! a) as [x|] eqn:Ha; [|done]. simplify_eq/=.
    destruct (Hc x) as [z ->]; [left|]. simpl. eauto.
  - eauto.
  - simplify_eq. destruct (Hc x) as [z ->]; [left|]. simpl. eauto.
  - eauto.
  - eauto.
  - simplify_eq. apply Hidx; [|done].
    intros i x Hx. by rewrite Hx.
  - simplify_eq. apply forEach_total. intros kv acc Hkv.
    destruct (Hc kv.1) as [z1 ->].
    { apply list_elem_of_In, in_flat_map. exists kv.
      split; [by apply list_elem_of_In|by left]. }
    destruct (Hc kv.2) as [z2 ->].
    { apply list_elem_of_In, in_flat_map. exists kv.
      split; [by apply list_elem_of_In|right; by left]. }
    simpl. eauto.
  - simplify_eq. apply Hidx; [|done].
    intros i x Hx. by rewrite Hx.
  - simplify_eq. apply Hidx; [|done].
    intros i x Hx. by rewrite Hx.
Qed.

(** The shapes at the edge: a nil or empty slice, a nil pointer, a nil
    interface, the empty string, a struct without fields. *)
Example calculateSize_empty_slice :
  calculateSize 1 ∅ (reflect.VSlice 0 []) = Done 8.
Proof. reflexivity. Qed.

Example calculateSize_nil_pointer :
  calculateSize 1 ∅ (reflect.VPtr None) = Done 8.
Proof. reflexivity. Qed.

Example calculateSize_nil_interface :
  calculateSize 1 ∅ (reflect.VIface None) = Done 8.
Proof. reflexivity. Qed.

Example calculateSize_empty_string :
  calculateSize 1 ∅ (reflect.VString "") = Done 16.
Proof. reflexivity. Qed.

Example calculateSize_empty_struct :
  calculateSize 1 ∅ (reflect.VStruct []) = Done 0.
Proof. reflexivity. Qed.

(** [[]int{1, 2, 3, 4, 5}]: 8 for the header, 16 for each of the 5 places,
    16 for each of the 5 elements. *)
Example calculateSize_oneToFive :
  calculateSize 2 ∅ (Examples.ValueOf_IntSlice Examples.oneToFive) = Done 168.
Proof. reflexivity. Qed.

(** ** Lists *)

Lemma filter_all {A} (P : A → Prop) `{∀ x, Decision (P x)} (xs : list A) :
  (∀ x, x ∈ xs → P x) → filter P xs = xs.
Proof.
  induction xs as [|x xs IH]; intros HP; [done|].
  rewrite filter_cons_True by (apply HP; left).
  f_equal. apply IH. intros; apply HP. by right.
Qed.

Lemma filter_none {A} (P : A → Prop) `{∀ x, Decision (P x)} (xs : list A) :
  (∀ x, x ∈ xs → ¬ P x) → filter P xs = [].
Proof.
  induction xs as [|x xs IH]; intros HP; [done|].
  rewrite filter_cons_False by (apply HP; left).
  apply IH. intros; apply HP. by right.
Qed.

Lemma omap_cons_eq {A B} (f : A → option B) (a : A) (l : list A) :
  omap f (a :: l)
  = match f a with Some y => y :: omap f l | None => omap f l end.
Proof. done. Qed.

Lemma length_removelast {A} (l : list A) :
  length (removelast l) = pred (length l).
Proof.
  induction l as [|a [|b l] IH]; [done..|].
  change (S (length (removelast (b :: l))) = S (length l)).
  by rewrite IH.
Qed.

Lemma removelast_cons {A} (a : A) (l : list A) :
  l ≠ [] → removelast (a :: l) = a :: removelast l.
Proof. by destruct l. Qed.

Lemma length_omap_le {A B} (f : A → option B) (l : list A) :
  (length (omap f l) ≤ length l)%nat.
Proof.
  induction l as [|a l IH]; [done|].
  rewrite omap_cons_eq. destruct (f a); simpl; lia.
Qed.

Lemma NoDup_4 {A} (a b c d : A) :
  NoDup [a; b; c; d] → a ≠ b ∧ a ≠ c ∧ a ≠ d ∧ b ≠ c ∧ b ≠ d ∧ c ≠ d.
Proof. rewrite !NoDup_cons, !not_elem_of_cons. tauto. Qed.

(** ** The cache *)

Section CacheProps.

Context {Key Value : Type} `{Countable Key}.

Implicit Types (c : Cache (Key := Key) (Value := Value)).
Implicit Types (es : list (entry (Key := Key) (Value := Value))).
Implicit Types (h : gmap elem (entry (Key := Key) (Value := Value))).
Implicit Types (l : list elem) (e : elem) (k : Key) (v : Value).

(** *** Sequences of entries *)

Lemma withoutKey_id k es : k ∉ key <$> es → withoutKey k es = es.
Proof.
  intros Hk. unfold withoutKey. apply filter_all.
  intros x Hx Heq. apply Hk. rewrite <- Heq.
  by apply list_elem_of_fmap_2.
Qed.

Lemma sumZ_withoutKey es ent :
  NoDup (key <$> es) → ent ∈ es →
  Int64.sumZ (size <$> es)
  = size ent + Int64.sumZ (size <$> withoutKey (key ent) es).
Proof.
  induction es as [|x es IH]; intros Hnd Hin; [by inversion Hin|].
  rewrite fmap_cons in Hnd. apply NoDup_cons in Hnd as [Hx Hnd].
  unfold withoutKey in *. rewrite filter_cons.
  apply elem_of_cons in Hin as [->|Hin].
  - rewrite decide_False by naive_solver.
    fold (withoutKey (key x) es). by rewrite withoutKey_id.
  - rewrite decide_True.
    + rewrite !fmap_cons, !sumZ_cons, (IH Hnd Hin). lia.
    + intros Heq. apply Hx. rewrite Heq. by apply list_elem_of_fmap_2.
Qed.

Lemma seq_find_elem es ent :
  NoDup (key <$> es) → ent ∈ es → seq_find (key ent) es = Some ent.
Proof.
  unfold seq_find.
  induction es as [|x es IH]; intros Hnd Hin; [by inversion Hin|].
  rewrite fmap_cons in Hnd. apply NoDup_cons in Hnd as [Hx Hnd].
  rewrite filter_cons.
  apply elem_of_cons in Hin as [->|Hin].
  - by rewrite decide_True.
  - rewrite decide_False; [by apply IH|].
    intros Heq. apply Hx. rewrite Heq. by apply list_elem_of_fmap_2.
Qed.

Lemma seq_find_None k es : k ∉ key <$> es → seq_find k es = None.
Proof.
  intros Hk. unfold seq_find. rewrite filter_none; [done|].
  intros x Hx Heq. apply Hk. rewrite <- Heq.
  by apply list_elem_of_fmap_2.
Qed.

Lemma withoutKey_last es ent :
  NoDup (key <$> es) → last es = Some ent →
  withoutKey (key ent) es = removelast es.
Proof.
  intros Hnd Hlast. apply last_Some in Hlast as [es' ->].
  rewrite removelast_last. unfold withoutKey.
  rewrite filter_app, filter_cons, decide_False, filter_nil, app_nil_r
    by naive_solver.
  apply filter_all. intros x Hx Heq.
  rewrite fmap_app in Hnd. apply NoDup_app in Hnd as (_ & Hdis & _).
  apply (Hdis (key x)); [by apply list_elem_of_fmap_2|].
  rewrite Heq. simpl. left.
Qed.

(** *** Elements and their entries *)

Lemma omap_insert_notin h l e x :
  e ∉ l → omap (λ a, <[e:=x]> h !! a) l = omap (λ a, h !! a) l.
Proof.
  induction l as [|a l IH]; intros Hnotin; [done|].
  apply not_elem_of_cons in Hnotin as [Hne Hnotin].
  by rewrite !omap_cons_eq, lookup_insert_ne, IH.
Qed.

Lemma omap_Remove h l e k :
  (∀ a x, a ∈ l → h !! a = Some x → (key x = k ↔ a = e)) →
  omap (λ a, h !! a) (Remove e l) = withoutKey k (omap (λ a, h !! a) l).
Proof.
  unfold Remove, withoutKey.
  induction l as [|a l IH]; intros Hk; [done|].
  assert (IH' := IH (λ a x Ha, Hk a x (list_elem_of_further _ _ _ Ha))).
  rewrite filter_cons, (omap_cons_eq _ a l).
  destruct (h !! a) as [x|] eqn:Hx.
  - rewrite filter_cons.
    destruct (Hk a x (list_elem_of_here _ _) Hx) as [H1 H2].
    destruct (decide (a ≠ e)) as [Hne|Heq].
    + rewrite decide_True by (intros Hkx; by apply Hne, H1).
      by rewrite omap_cons_eq, Hx, IH'.
    + apply dec_stable in Heq.
      rewrite decide_False by (intros Hkx; by apply Hkx, H2). done.
  - destruct (decide (a ≠ e)); by rewrite ?omap_cons_eq, ?Hx.
Qed.

Lemma omap_keys_NoDup h l :
  NoDup l →
  (∀ a b x y, a ∈ l → b ∈ l → h !! a = Some x → h !! b = Some y →
              key x = key y → a = b) →
  NoDup (key <$> omap (λ a, h !! a) l).
Proof.
  induction l as [|a l IH]; intros Hnd Hinj; [constructor|].
  apply NoDup_cons in Hnd as [Ha Hnd]. rewrite omap_cons_eq.
  assert (IH' : NoDup (key <$> omap (λ a, h !! a) l)).
  { apply IH; [done|]. intros b b' x y Hb Hb'.
    apply Hinj; by right. }
  destruct (h !! a) as [x|] eqn:Hx; [|done].
  rewrite fmap_cons. apply NoDup_cons. split; [|done].
  intros Hin. apply list_elem_of_fmap in Hin as (y & Hy & Hin).
  apply list_elem_of_omap in Hin as (b & Hb & Hyb).
  apply Ha. rewrite (Hinj a b x y); [done|left|by right|done..].
Qed.

Lemma WF_key_inj c a b x y :
  WF c → a ∈ evictList c → b ∈ evictList c →
  elems c !! a = Some x → elems c !! b = Some y →
  key x = key y → a = b.
Proof.
  intros Hwf Ha Hb Hx Hy Heq.
  destruct (wf_list_store c Hwf a Ha) as (x' & Hx' & Hsa).
  destruct (wf_list_store c Hwf b Hb) as (y' & Hy' & Hsb).
  simplify_eq; congruence.
Qed.

Lemma WF_keys_NoDup c : WF c → NoDup (key <$> entries c).
Proof.
  intros Hwf. apply omap_keys_NoDup; [apply Hwf|].
  intros; by eapply WF_key_inj.
Qed.

Lemma WF_present c k e :
  WF c → store c !! k = Some e →
  ∃ ent, elems c !! e = Some ent ∧ key ent = k ∧ e ∈ evictList c
         ∧ ent ∈ entries c.
Proof.
  intros Hwf Hk.
  destruct (wf_store_list c Hwf k e Hk) as (He & ent & Hent & Hkey).
  exists ent. repeat split; try done.
  apply list_elem_of_omap. eauto.
Qed.

Lemma WF_absent c k : WF c → store c !! k = None → k ∉ key <$> entries c.
Proof.
  intros Hwf Hk Hin.
  apply list_elem_of_fmap in Hin as (x & -> & Hin).
  apply list_elem_of_omap in Hin as (a & Ha & Hx).
  destruct (wf_list_store c Hwf a Ha) as (x' & Hx' & Hs).
  simplify_eq; congruence.
Qed.

Lemma WF_key_iff c e ent a x :
  WF c → e ∈ evictList c → elems c !! e = Some ent →
  a ∈ evictList c → elems c !! a = Some x →
  key x = key ent ↔ a = e.
Proof.
  intros Hwf He Hent Ha Hx. split.
  - intros Heq. by eapply WF_key_inj.
  - intros ->. congruence.
Qed.

Lemma WF_entries_last c e :
  WF c → last (evictList c) = Some e →
  ∃ ent, elems c !! e = Some ent ∧ last (entries c) = Some ent.
Proof.
  intros Hwf Hlast.
  assert (He : e ∈ evictList c).
  { apply last_Some in Hlast as [l' ->]. set_solver. }
  destruct (wf_list_store c Hwf e He) as (ent & Hent & _).
  exists ent. split; [done|].
  unfold entries. apply last_Some in Hlast as [l' ->].
  rewrite omap_app. simpl. rewrite Hent. apply last_snoc.
Qed.

(** *** The invariant is kept *)

Local Ltac fields :=
  cbn [store elems evictList maxSize currSize key value size].

Lemma New_WF maxMB c : New maxMB = Done c → WF c.
Proof.
  unfold New. case_decide; [done|]. intros [= <-].
  split; simpl; [constructor|by intros ? ?%elem_of_nil|done|done].
Qed.

(** Taking an element out of list and index, as [evict] and [Delete] do. *)
Lemma drop_WF c e ent :
  WF c → e ∈ evictList c → elems c !! e = Some ent →
  let c' := {| store := delete (key ent) (store c);
               elems := elems c;
               evictList := Remove e (evictList c);
               maxSize := maxSize c;
               currSize := Int64.sub (currSize c) (size ent) |} in
  WF c' ∧ entries c' = withoutKey (key ent) (entries c).
Proof.
  intros Hwf He Hent c'.
  assert (Hentries : entries c' = withoutKey (key ent) (entries c)).
  { subst c'. unfold entries; fields. apply omap_Remove.
    intros a x Ha Hx. by eapply WF_key_iff. }
  split; [|done]. subst c'. split; fields.
  - apply NoDup_filter, Hwf.
  - intros a [Hne Ha]%list_elem_of_filter.
    destruct (wf_list_store c Hwf a Ha) as (x & Hx & Hs).
    exists x. split; [done|]. rewrite lookup_delete_ne; [done|].
    intros Heq. apply Hne. symmetry in Heq.
    by eapply (WF_key_iff c e ent a x).
  - intros k a [Hne Hs]%lookup_delete_Some.
    destruct (wf_store_list c Hwf k a Hs) as (Ha & x & Hx & Hk).
    split; [|eauto]. apply list_elem_of_filter. split; [|done].
    intros ->. simplify_eq.
  - unfold sumSizes. rewrite Hentries, (wf_size c Hwf). unfold sumSizes.
    rewrite !sum_wrap. unfold Int64.sub. rewrite wrap_sub_l. f_equal.
    rewrite (sumZ_withoutKey (entries c) ent).
    + lia.
    + by apply WF_keys_NoDup.
    + apply list_elem_of_omap. eauto.
Qed.

Lemma put_WF k v s c :
  WF c →
  ∃ c', Cache_put k v s c = Done c' ∧ WF c' ∧ maxSize c' = maxSize c
        ∧ entries c' = seq_put k v s (entries c).
Proof.
  intros Hwf. unfold Cache_put.
  destruct (store c !! k) as [e|] eqn:Hk.
  - destruct (WF_present c k e Hwf Hk) as (ent & Hent & Hkey & He & Hin).
    unfold elemEntry. rewrite Hent. cbn [mbind outcome_bind].
    eexists. split; [done|].
    unfold MoveToFront. rewrite decide_True by done.
    assert (Hnotin : e ∉ Remove e (evictList c)).
    { intros [Hne _]%list_elem_of_filter. done. }
    assert (Hentries :
      omap (λ a, <[e:={| key := key ent; value := v; size := s |}]>
                   (elems c) !! a) (e :: Remove e (evictList c))
      = seq_put k v s (entries c)).
    { rewrite omap_cons_eq, lookup_insert_eq, omap_insert_notin by done.
      unfold seq_put. rewrite Hkey. f_equal. apply omap_Remove.
      intros a x Ha Hx. rewrite <- Hkey. by eapply WF_key_iff. }
    split; [|done]. split; fields.
    + apply NoDup_cons. split; [done|]. apply NoDup_filter, Hwf.
    + intros a [->|[Hne Ha]%list_elem_of_filter]%elem_of_cons.
      * rewrite lookup_insert_eq. eexists. split; [done|]. simpl.
        by rewrite Hkey.
      * rewrite lookup_insert_ne by done.
        by apply (wf_list_store c Hwf).
    + intros k' a Hs.
      destruct (wf_store_list c Hwf k' a Hs) as (Ha & x & Hx & Hk').
      destruct (decide (a = e)) as [->|Hne].
      * split; [left|]. rewrite lookup_insert_eq. eexists.
        split; [done|]. simpl. congruence.
      * split; [right; by apply list_elem_of_filter|].
        rewrite lookup_insert_ne by done. eauto.
    + unfold sumSizes, entries. fields. rewrite Hentries.
      rewrite (wf_size c Hwf). unfold sumSizes, seq_put.
      rewrite fmap_cons, sum_cons, sum_wrap. fields.
      unfold Int64.add, Int64.sub.
      rewrite wrap_sub_l, wrap_add_l. f_equal.
      rewrite (sumZ_withoutKey (entries c) ent), Hkey;
        [lia|by apply WF_keys_NoDup|done].
  - simpl. eexists. split; [done|].
    assert (Hfresh : newElem c ∉ evictList c).
    { intros Hin.
      destruct (wf_list_store c Hwf _ Hin) as (x & Hx & _).
      apply (is_fresh (dom (elems c))). apply elem_of_dom. eauto. }
    assert (Hentries :
      omap (λ a, <[newElem c:={| key := k; value := v; size := s |}]>
                   (elems c) !! a) (newElem c :: evictList c)
      = seq_put k v s (entries c)).
    { rewrite omap_cons_eq, lookup_insert_eq, omap_insert_notin by done.
      unfold seq_put. by rewrite withoutKey_id by (by apply WF_absent). }
    split; [|done]. split; fields.
    + apply NoDup_cons. split; [done|apply Hwf].
    + intros a [->|Ha]%elem_of_cons.
      * rewrite lookup_insert_eq. eexists. split; [done|].
        fields. by rewrite lookup_insert_eq.
      * destruct (wf_list_store c Hwf a Ha) as (x & Hx & Hs).
        rewrite lookup_insert_ne by (intros <-; done).
        exists x. split; [done|].
        rewrite lookup_insert_ne; [done|]. intros Heq. congruence.
    + intros k' a [[<- <-]|[Hne Hs]]%lookup_insert_Some.
      * split; [left|]. rewrite lookup_insert_eq. eauto.
      * destruct (wf_store_list c Hwf k' a Hs) as (Ha & x & Hx & Hk').
        split; [by right|].
        rewrite lookup_insert_ne by (intros <-; done). eauto.
    + unfold sumSizes, entries. fields. rewrite Hentries.
      rewrite (wf_size c Hwf). unfold sumSizes, seq_put.
      rewrite withoutKey_id by (by apply WF_absent).
      rewrite fmap_cons, sum_cons, sum_wrap. fields.
      unfold Int64.add. rewrite wrap_add_l. f_equal. lia.
Qed.

Lemma evict_WF c :
  WF c →
  ∃ c', Cache_evict c = Done c' ∧ WF c' ∧ maxSize c' = maxSize c
        ∧ entries c' = removelast (entries c).
Proof.
  intros Hwf. unfold Cache_evict, Back.
  destruct (last (evictList c)) as [e|] eqn:Hlast.
  - destruct (WF_entries_last c e Hwf Hlast) as (ent & Hent & Hl).
    unfold elemEntry. rewrite Hent. cbn [mbind outcome_bind].
    eexists. split; [done|].
    assert (He : e ∈ evictList c).
    { apply last_Some in Hlast as [l' ->]. set_solver. }
    destruct (drop_WF c e ent Hwf He Hent) as [Hwf' Hes].
    split; [done|]. split; [done|].
    rewrite Hes. apply withoutKey_last; [by apply WF_keys_NoDup|done].
  - exists c. apply last_None in Hlast.
    unfold entries. rewrite Hlast. done.
Qed.

Lemma evictLoop_unfold fuel c :
  evictLoop fuel c
  = if decide (currSize c > maxSize c) then
      match fuel with
      | O => OutOfFuel
      | S fuel' => c' ← Cache_evict c; evictLoop fuel' c'
      end
    else Done c.
Proof. by destruct fuel. Qed.

Lemma seq_evictLoop_unfold fuel cap es :
  seq_evictLoop fuel cap es
  = if decide (Int64.sum (size <$> es) > cap) then
      match fuel with
      | O => OutOfFuel
      | S fuel' => seq_evictLoop fuel' cap (removelast es)
      end
    else Done es.
Proof. by destruct fuel. Qed.

(** The eviction loop does to the entries what [seq_evictLoop] says. *)
Lemma entries_evictLoop fuel c :
  WF c →
  entries <$> evictLoop fuel c = seq_evictLoop fuel (maxSize c) (entries c)
  ∧ ∀ c', evictLoop fuel c = Done c' → WF c' ∧ maxSize c' = maxSize c.
Proof.
  revert c. induction fuel as [|fuel IH]; intros c Hwf;
    rewrite evictLoop_unfold, seq_evictLoop_unfold;
    rewrite (wf_size c Hwf); unfold sumSizes;
    case_decide; try (split; [done|by intros ? [= <-]]).
  destruct (evict_WF c Hwf) as (c1 & -> & Hwf1 & Hmax & Hes).
  cbn [mbind outcome_bind].
  destruct (IH c1 Hwf1) as [IH1 IH2]. rewrite IH1, Hmax, Hes.
  split; [done|]. intros c' Hc'. destruct (IH2 c' Hc'). split; congruence.
Qed.

Variable ValueOfKey : Key → reflect.Value.
Variable ValueOfValue : Value → reflect.Value.
Variable zero : Value.

Lemma entries_Set fuel m k v c :
  WF c →
  entries <$> Cache_Set ValueOfKey ValueOfValue fuel m k v c
  = (s ← calculateEntrySize ValueOfKey ValueOfValue fuel m k v;
     seq_evictLoop fuel (maxSize c) (seq_put k v s (entries c))).
Proof.
  intros Hwf. unfold Cache_Set.
  destruct (calculateEntrySize _ _ fuel m k v) as [s| |]; try done.
  cbn [mbind outcome_bind].
  destruct (put_WF k v s c Hwf) as (c1 & -> & Hwf1 & Hmax & Hes).
  cbn [mbind outcome_bind].
  destruct (entries_evictLoop fuel c1 Hwf1) as [-> _]. congruence.
Qed.

Lemma Set_WF fuel m k v c c' :
  WF c → Cache_Set ValueOfKey ValueOfValue fuel m k v c = Done c' →
  WF c' ∧ maxSize c' = maxSize c.
Proof.
  intros Hwf. unfold Cache_Set.
  destruct (calculateEntrySize _ _ fuel m k v) as [s| |]; try done.
  cbn [mbind outcome_bind].
  destruct (put_WF k v s c Hwf) as (c1 & -> & Hwf1 & Hmax & Hes).
  cbn [mbind outcome_bind]. intros Hc'.
  destruct (entries_evictLoop fuel c1 Hwf1) as [_ Hloop].
  destruct (Hloop c' Hc'). split; congruence.
Qed.

Lemma Get_spec k c :
  WF c →
  ∃ c', Cache_Get zero k c
        = Done (match seq_find k (entries c) with
                | Some ent => (value ent, true)
                | None => (zero, false)
                end, c')
        ∧ WF c' ∧ maxSize c' = maxSize c
        ∧ entries c' = seq_touch k (entries c).
Proof.
  intros Hwf. unfold Cache_Get, seq_touch.
  destruct (store c !! k) as [e|] eqn:Hk.
  - destruct (WF_present c k e Hwf Hk) as (ent & Hent & Hkey & He & Hin).
    unfold elemEntry. fields. rewrite Hent. cbn [mbind outcome_bind].
    rewrite <- Hkey, (seq_find_elem _ ent) by (done || by apply WF_keys_NoDup).
    eexists. split; [done|].
    unfold MoveToFront. rewrite decide_True by done.
    assert (Hentries :
      omap (λ a, elems c !! a) (e :: Remove e (evictList c))
      = ent :: withoutKey (key ent) (entries c)).
    { rewrite omap_cons_eq, Hent. f_equal. apply omap_Remove.
      intros a x Ha Hx. by eapply WF_key_iff. }
    split; [|done]. split; fields.
    + apply NoDup_cons. split; [|apply NoDup_filter, Hwf].
      by intros [Hne _]%list_elem_of_filter.
    + intros a [->|[Hne Ha]%list_elem_of_filter]%elem_of_cons.
      * exists ent. split; [done|]. by rewrite Hkey.
      * by apply (wf_list_store c Hwf).
    + intros k' a Hs.
      destruct (wf_store_list c Hwf k' a Hs) as (Ha & x & Hx & Hk').
      split; [|eauto].
      destruct (decide (a = e)) as [->|Hne]; [left|right].
      by apply list_elem_of_filter.
    + unfold sumSizes, entries. fields. rewrite Hentries.
      rewrite (wf_size c Hwf). unfold sumSizes.
      rewrite fmap_cons, sum_cons, sum_wrap. f_equal.
      by rewrite (sumZ_withoutKey (entries c) ent)
        by (done || by apply WF_keys_NoDup).
  - rewrite seq_find_None by (by apply WF_absent). eauto.
Qed.

Lemma Delete_spec k c :
  WF c →
  ∃ c', Cache_Delete k c = Done c' ∧ WF c' ∧ maxSize c' = maxSize c
        ∧ entries c' = withoutKey k (entries c).
Proof.
  intros Hwf. unfold Cache_Delete.
  destruct (store c !! k) as [e|] eqn:Hk.
  - destruct (WF_present c k e Hwf Hk) as (ent & Hent & Hkey & He & Hin).
    unfold elemEntry. rewrite Hent. cbn [mbind outcome_bind].
    eexists. split; [done|].
    destruct (drop_WF c e ent Hwf He Hent) as [Hwf' Hes].
    rewrite Hkey in Hwf', Hes. done.
  - exists c. by rewrite withoutKey_id by (by apply WF_absent).
Qed.

(** Every cache a program can hold satisfies the invariant. *)
Lemma reachable_WF c : reachable ValueOfKey ValueOfValue zero c → WF c.
Proof.
  induction 1 as [maxMB c Hnew|op c c' _ IH Hstep];
    [by eapply New_WF|].
  destruct op as [fuel m k v|k|k]; simpl in Hstep.
  - by eapply Set_WF.
  - destruct (Get_spec k c IH) as (c1 & Hget & Hwf1 & _).
    rewrite Hget in Hstep. by simplify_eq/=.
  - destruct (Delete_spec k c IH) as (c1 & Hdel & Hwf1 & _).
    congruence.
Qed.

(** *** The eviction loop on sequences of entries *)

Lemma seq_evictLoop_terminates fuel cap es :
  0 ≤ cap → (length es ≤ fuel)%nat →
  ∃ es', seq_evictLoop fuel cap es = Done es'.
Proof.
  intros Hcap. revert es.
  induction fuel as [|fuel IH]; intros es Hlen;
    rewrite seq_evictLoop_unfold; case_decide as Hgt; eauto.
  - destruct es; [|simpl in Hlen; lia]. simpl in Hgt. lia.
  - apply IH. rewrite length_removelast. lia.
Qed.

(** An entry that fits by itself is not evicted when it is at the front. *)
Lemma seq_evictLoop_keeps_head fuel cap x es :
  Int64.inRange (size x) → size x ≤ cap → (length es ≤ fuel)%nat →
  ∃ es', seq_evictLoop fuel cap (x :: es) = Done (x :: es').
Proof.
  intros Hx Hcap. revert es.
  assert (Hne : ∀ es, Int64.sum (size <$> x :: es) > cap → es ≠ []).
  { intros es Hgt ->. rewrite fmap_cons, sum_cons in Hgt. simpl in Hgt.
    rewrite Z.add_0_r, wrap_id in Hgt by done. lia. }
  induction fuel as [|fuel IH]; intros es Hlen;
    rewrite seq_evictLoop_unfold; case_decide as Hgt; eauto.
  - apply Hne in Hgt. destruct es; [done|simpl in Hlen; lia].
  - apply Hne in Hgt. rewrite removelast_cons by done.
    apply IH. rewrite length_removelast. lia.
Qed.

(** With a negative capacity the loop does not stop on the empty list. *)
Lemma seq_evictLoop_empty_diverges fuel cap :
  cap < 0 →
  seq_evictLoop (Key := Key) (Value := Value) fuel cap [] = OutOfFuel.
Proof.
  intros Hcap. induction fuel as [|fuel IH];
    rewrite seq_evictLoop_unfold; (case_decide as Hgt; [done|]).
  - simpl in Hgt. lia.
  - simpl in Hgt. lia.
Qed.

(** *** calculateEntrySize *)

Lemma calculateEntrySize_mono f f' m k v s :
  (f ≤ f')%nat →
  calculateEntrySize ValueOfKey ValueOfValue f m k v = Done s →
  calculateEntrySize ValueOfKey ValueOfValue f' m k v = Done s.
Proof.
  unfold calculateEntrySize. intros Hle Hs.
  apply bind_Done in Hs as (ks & Hks & Hs).
  apply bind_Done in Hs as (vs & Hvs & Hs).
  rewrite (calculateSize_mono_Done f f' m _ ks Hle Hks).
  cbn [mbind outcome_bind].
  by rewrite (calculateSize_mono_Done f f' m _ vs Hle Hvs).
Qed.

Lemma calculateEntrySize_inRange f m k v s :
  calculateEntrySize ValueOfKey ValueOfValue f m k v = Done s →
  Int64.inRange s.
Proof.
  unfold calculateEntrySize. intros Hs.
  apply bind_Done in Hs as (ks & Hks & Hs).
  apply bind_Done in Hs as (vs & Hvs & [= <-]).
  apply wrap_inRange.
Qed.

(** Below the budget that makes it return, [calculateEntrySize] has not
    returned yet. *)
Lemma calculateEntrySize_below f f' m k v s :
  calculateEntrySize ValueOfKey ValueOfValue f m k v = Done s →
  calculateEntrySize ValueOfKey ValueOfValue f' m k v = Done s
  ∨ calculateEntrySize ValueOfKey ValueOfValue f' m k v = OutOfFuel.
Proof.
  intros Hs. destruct (decide (f ≤ f')%nat) as [Hle|Hgt].
  { left. by eapply calculateEntrySize_mono. }
  assert (Hle : (f' ≤ f)%nat) by lia. clear Hgt.
  unfold calculateEntrySize in *.
  apply bind_Done in Hs as (ks & Hks & Hs).
  apply bind_Done in Hs as (vs & Hvs & Hs).
  destruct (calculateSize f' m (ValueOfKey k)) as [ks'| |] eqn:Hk';
    [|exfalso|by right].
  - assert (ks' = ks).
    { pose proof (calculateSize_mono_Done f' f m _ ks' Hle Hk'). congruence. }
    subst ks'. cbn [mbind outcome_bind].
    destruct (calculateSize f' m (ValueOfValue v)) as [vs'| |] eqn:Hv';
      [|exfalso|by right].
    + assert (vs' = vs).
      { pose proof (calculateSize_mono_Done f' f m _ vs' Hle Hv').
        congruence. }
      subst vs'. by left.
    + rewrite (calculateSize_mono f' f) in Hvs by (done || by rewrite Hv').
      congruence.
  - rewrite (calculateSize_mono f' f) in Hks by (done || by rewrite Hk').
    congruence.
Qed.

(** *** Set returns *)

Lemma Set_returns_WF fuel m k v s c :
  WF c → 0 ≤ maxSize c →
  calculateEntrySize ValueOfKey ValueOfValue fuel m k v = Done s →
  (length (evictList c) < fuel)%nat →
  ∃ c', Cache_Set ValueOfKey ValueOfValue fuel m k v c = Done c'.
Proof.
  intros Hwf Hcap Hs Hlen.
  pose proof (entries_Set fuel m k v c Hwf) as Heq.
  rewrite Hs in Heq. cbn [mbind outcome_bind] in Heq.
  destruct (seq_evictLoop_terminates fuel (maxSize c)
              (seq_put k v s (entries c)) Hcap) as [es' Hes'].
  { unfold seq_put, withoutKey. simpl.
    pose proof (length_filter (λ x, key x ≠ k) (entries c)).
    pose proof (length_omap_le (λ e, elems c !! e) (evictList c)).
    unfold entries in *. lia. }
  rewrite Hes' in Heq. apply fmap_Done in Heq as (c' & Hc' & _). eauto.
Qed.

(** *** The claims about the cache *)

(** C1. After [New] and after every public operation, [currSize] is the
    sum of the recorded sizes of the entries in the cache. The sum is that
    of [int64] values, accumulated in an [int64] as the code does; it is
    the sum without bound whenever that one is an [int64]. *)
Theorem currSize_is_sum_of_sizes c :
  reachable ValueOfKey ValueOfValue zero c →
  currSize c = Int64.sum (size <$> entries c)
  ∧ (Int64.inRange (Int64.sumZ (size <$> entries c)) →
     currSize c = Int64.sumZ (size <$> entries c)).
Proof.
  intros Hwf%reachable_WF. rewrite (wf_size c Hwf). unfold sumSizes.
  split; [done|]. apply sum_exact.
Qed.

(** C2. After [New] and after every public operation, index and recency
    list are in bijection: no element is twice in the list; every key of
    the index leads to an element of the list whose entry holds that key;
    every element of the list has an entry whose key the index sends back
    to that element; so the element holding a key of the index is the
    only one in the list that holds it. *)
Theorem index_list_bijection c :
  reachable ValueOfKey ValueOfValue zero c →
  NoDup (evictList c)
  ∧ (∀ k e, store c !! k = Some e →
       e ∈ evictList c ∧ ∃ ent, elems c !! e = Some ent ∧ key ent = k)
  ∧ (∀ e, e ∈ evictList c →
       ∃ ent, elems c !! e = Some ent ∧ store c !! key ent = Some e)
  ∧ (∀ k e e' ent', store c !! k = Some e → e' ∈ evictList c →
       elems c !! e' = Some ent' → key ent' = k → e' = e).
Proof.
  intros Hwf%reachable_WF. repeat split.
  - apply Hwf.
  - by eapply (wf_store_list c Hwf).
  - by eapply (wf_store_list c Hwf).
  - apply (wf_list_store c Hwf).
  - intros k e e' ent' Hk He' Hent' Hkey.
    destruct (wf_list_store c Hwf e' He') as (x & Hx & Hs).
    simplify_eq. congruence.
Qed.

(** X23. In a cache whose capacity is not negative, [Set] returns
    whenever the size estimation does: the eviction loop takes out one
    entry of the list each time round, and with no entry left the total is
    0, which is not above the capacity; so it goes round at most once per
    entry that the list holds after the insertion. The budget [fuel]
    counts those rounds. *)
Theorem Set_returns c fuel0 m k v s :
  reachable ValueOfKey ValueOfValue zero c →
  0 ≤ maxSize c →
  calculateEntrySize ValueOfKey ValueOfValue fuel0 m k v = Done s →
  ∀ fuel, (fuel0 ≤ fuel)%nat → (length (evictList c) < fuel)%nat →
    ∃ c', Cache_Set ValueOfKey ValueOfValue fuel m k v c = Done c'
          ∧ maxSize c' = maxSize c
          ∧ currSize c' ≤ maxSize c'.
Proof.
  intros Hwf%reachable_WF Hcap Hs fuel Hfuel Hlen.
  destruct (Set_returns_WF fuel m k v s c) as [c' Hc']; try done.
  { by apply (calculateEntrySize_mono fuel0). }
  exists c'. split; [done|].
  destruct (Set_WF _ _ _ _ _ _ Hwf Hc') as [_ Hmax]. split; [done|].
  unfold Cache_Set in Hc'.
  apply bind_Done in Hc' as (s' & _ & Hc').
  apply bind_Done in Hc' as (c1 & _ & Hc').
  clear -Hc'. revert c1 Hc'.
  induction fuel as [|fuel IH]; intros c1;
    rewrite evictLoop_unfold; case_decide as Hgt; try done.
  - intros [= <-]. lia.
  - intros (c2 & _ & Hc2)%bind_Done. by eapply IH.
  - intros [= <-]. lia.
Qed.

(** One [Set], read off the sequence of entries. *)
Lemma Set_step fuel m k v s c es' :
  WF c →
  calculateEntrySize ValueOfKey ValueOfValue fuel m k v = Done s →
  seq_evictLoop fuel (maxSize c) (seq_put k v s (entries c)) = Done es' →
  ∃ c', Cache_Set ValueOfKey ValueOfValue fuel m k v c = Done c'
        ∧ WF c' ∧ maxSize c' = maxSize c ∧ entries c' = es'.
Proof.
  intros Hwf Hs Hes'.
  pose proof (entries_Set fuel m k v c Hwf) as Heq.
  rewrite Hs in Heq. cbn [mbind outcome_bind] in Heq.
  rewrite Hes' in Heq. apply fmap_Done in Heq as (c' & Hc' & Hes).
  exists c'. destruct (Set_WF _ _ _ _ _ _ Hwf Hc'). done.
Qed.

(** C4, as the code has it. [Get] and [Delete] return in every cache,
    whatever the key and the capacity. For a key and a value of finite
    depth (no pointer chain leads back into itself), empty slices, nil
    pointers and empty strings included, the size estimation returns
    without a panic, and [Set] returns in every cache whose capacity is
    not negative. *)
Theorem operations_return c d m k v :
  reachable ValueOfKey ValueOfValue zero c →
  (∃ r, Cache_Get zero k c = Done r)
  ∧ (∃ c', Cache_Delete k c = Done c')
  ∧ (reflect.finiteDepth d m (ValueOfKey k) = true →
     reflect.finiteDepth d m (ValueOfValue v) = true →
     (∃ s, ∀ fuel, (d ≤ fuel)%nat →
        calculateEntrySize ValueOfKey ValueOfValue fuel m k v = Done s)
     ∧ (0 ≤ maxSize c →
        ∀ fuel, (d ≤ fuel)%nat → (length (evictList c) < fuel)%nat →
          ∃ c', Cache_Set ValueOfKey ValueOfValue fuel m k v c = Done c')).
Proof.
  intros Hwf%reachable_WF. split; [|split].
  { destruct (Get_spec k c Hwf) as (c' & -> & _). eauto. }
  { destruct (Delete_spec k c Hwf) as (c' & -> & _). eauto. }
  intros Hk Hv.
  destruct (calculateSize_finiteDepth d m _ Hk) as [ks Hks].
  destruct (calculateSize_finiteDepth d m _ Hv) as [vs Hvs].
  assert (Hs : ∀ fuel, (d ≤ fuel)%nat →
    calculateEntrySize ValueOfKey ValueOfValue fuel m k v
    = Done (Int64.add ks vs)).
  { intros fuel Hfuel. unfold calculateEntrySize.
    rewrite (calculateSize_mono_Done d fuel m _ ks Hfuel Hks).
    cbn [mbind outcome_bind].
    by rewrite (calculateSize_mono_Done d fuel m _ vs Hfuel Hvs). }
  split; [eauto|].
  intros Hcap fuel Hfuel Hlen. eapply Set_returns_WF; eauto.
Qed.

(** C6, as the code has it. When the estimated size of the entry is not
    above the capacity, [Set(key, value)] returns and [Get(key)] right
    after it returns [(value, true)]. *)
Theorem Set_then_Get c fuel0 m k v s :
  reachable ValueOfKey ValueOfValue zero c →
  calculateEntrySize ValueOfKey ValueOfValue fuel0 m k v = Done s →
  s ≤ maxSize c →
  ∀ fuel, (fuel0 ≤ fuel)%nat → (length (evictList c) ≤ fuel)%nat →
    ∃ c' c'', Cache_Set ValueOfKey ValueOfValue fuel m k v c = Done c'
              ∧ Cache_Get zero k c' = Done (v, true, c'').
Proof.
  intros Hwf%reachable_WF Hs Hcap fuel Hfuel Hlen.
  pose proof (calculateEntrySize_inRange _ _ _ _ _ Hs) as Hrange.
  apply (calculateEntrySize_mono fuel0 fuel) in Hs; [|done].
  destruct (seq_evictLoop_keeps_head fuel (maxSize c)
              {| key := k; value := v; size := s |}
              (withoutKey k (entries c))) as [es' Hes']; [done..| |].
  { pose proof (length_filter (λ x, key x ≠ k) (entries c)).
    pose proof (length_omap_le (λ e, elems c !! e) (evictList c)).
    unfold withoutKey, entries in *. lia. }
  destruct (Set_step fuel m k v s c _ Hwf Hs Hes')
    as (c' & Hc' & Hwf' & _ & Hentries).
  destruct (Get_spec k c' Hwf') as (c'' & Hget & _).
  exists c', c''. split; [done|]. rewrite Hget, Hentries.
  unfold seq_find. by rewrite filter_cons_True.
Qed.

(** *** Least recently used first *)

Lemma calculateEntrySize_fuel fuel m k v s :
  calculateEntrySize ValueOfKey ValueOfValue fuel m k v = Done s →
  ∃ fuel', fuel = S fuel'.
Proof. destruct fuel; [done|eauto]. Qed.

Local Ltac sizes :=
  unfold Int64.inRange, Int64.min;
  repeat match goal with
         | Hmax : context [Int64.max] |- _ => unfold Int64.max in Hmax
         | Hrange : Int64.inRange _ |- _ =>
             unfold Int64.inRange, Int64.min in Hrange
         end;
  unfold Int64.max;
  rewrite ?fmap_cons, ?fmap_nil, ?sumZ_cons; fields;
  change (Int64.sumZ []) with 0; lia.

(** No entry of the list has the key: nothing is taken out. *)
Local Ltac keep_all :=
  unfold seq_put, withoutKey;
  repeat (rewrite filter_cons_True by (fields; congruence));
  rewrite ?filter_nil.

(** The loop does not run, or runs once. *)
Local Ltac loop_stops :=
  rewrite seq_evictLoop_unfold, sum_exact by sizes;
  rewrite decide_False by sizes.

Local Ltac loop_once :=
  rewrite seq_evictLoop_unfold, sum_exact by sizes;
  rewrite decide_True by sizes;
  cbn [removelast].

(** C7, as the code has it. In an empty cache whose capacity holds three
    of the entries but not all four, the estimated sizes not negative and
    their sum no more than an [int64] holds, inserting the distinct keys
    A, B, C and then D evicts A and nothing else: B, C and D are in the
    cache, A is not. *)
Theorem lru_evicts_least_recent c0 fuel m kA kB kC kD vA vB vC vD
    sA sB sC sD :
  reachable ValueOfKey ValueOfValue zero c0 →
  evictList c0 = [] →
  NoDup [kA; kB; kC; kD] →
  calculateEntrySize ValueOfKey ValueOfValue fuel m kA vA = Done sA →
  calculateEntrySize ValueOfKey ValueOfValue fuel m kB vB = Done sB →
  calculateEntrySize ValueOfKey ValueOfValue fuel m kC vC = Done sC →
  calculateEntrySize ValueOfKey ValueOfValue fuel m kD vD = Done sD →
  0 ≤ sA → 0 ≤ sB → 0 ≤ sC → 0 ≤ sD →
  sA + sB + sC ≤ maxSize c0 →
  sB + sC + sD ≤ maxSize c0 →
  maxSize c0 < sA + sB + sC + sD ≤ Int64.max →
  ∃ c3 c4,
    (c ← Cache_Set ValueOfKey ValueOfValue fuel m kA vA c0;
     c ← Cache_Set ValueOfKey ValueOfValue fuel m kB vB c;
     Cache_Set ValueOfKey ValueOfValue fuel m kC vC c) = Done c3
    ∧ key <$> entries c3 = [kC; kB; kA]
    ∧ Cache_Set ValueOfKey ValueOfValue fuel m kD vD c3 = Done c4
    ∧ key <$> entries c4 = [kD; kC; kB]
    ∧ fst <$> Cache_Get zero kA c4 = Done (zero, false)
    ∧ fst <$> Cache_Get zero kB c4 = Done (vB, true)
    ∧ fst <$> Cache_Get zero kC c4 = Done (vC, true)
    ∧ fst <$> Cache_Get zero kD c4 = Done (vD, true).
Proof.
  intros Hwf0%reachable_WF Hempty (HAB & HAC & HAD & HBC & HBD & HCD)%NoDup_4
    HA HB HC HD ? ? ? ? H3 H3' [H4 Hmax].
  assert (Hes0 : entries c0 = []) by (unfold entries; by rewrite Hempty).
  destruct (calculateEntrySize_fuel _ _ _ _ _ HA) as [fuel' ->].
  edestruct (Set_step (S fuel') m kA vA sA c0) as (c1 & HS1 & Hwf1 & Hm1 & Hes1);
    [done..| |].
  { rewrite Hes0. keep_all. loop_stops. done. }
  edestruct (Set_step (S fuel') m kB vB sB c1) as (c2 & HS2 & Hwf2 & Hm2 & Hes2);
    [done..| |].
  { rewrite Hes1, Hm1. keep_all. loop_stops. done. }
  edestruct (Set_step (S fuel') m kC vC sC c2) as (c3 & HS3 & Hwf3 & Hm3 & Hes3);
    [done..| |].
  { rewrite Hes2, Hm2, Hm1. keep_all. loop_stops. done. }
  edestruct (Set_step (S fuel') m kD vD sD c3) as (c4 & HS4 & Hwf4 & Hm4 & Hes4);
    [done..| |].
  { rewrite Hes3, Hm3, Hm2, Hm1. keep_all. loop_once. loop_stops. done. }
  exists c3, c4. rewrite HS1. cbn [mbind outcome_bind].
  rewrite HS2. cbn [mbind outcome_bind].
  rewrite Hes3, Hes4. repeat (split; [done|]).
  destruct (Get_spec kA c4 Hwf4) as (? & -> & _).
  destruct (Get_spec kB c4 Hwf4) as (? & -> & _).
  destruct (Get_spec kC c4 Hwf4) as (? & -> & _).
  destruct (Get_spec kD c4 Hwf4) as (? & -> & _).
  rewrite Hes4. unfold seq_find.
  repeat split; cbn [fmap outcome_fmap fst];
    repeat (rewrite filter_cons_False by (fields; congruence));
    rewrite ?filter_cons_True by done; rewrite ?filter_nil; done.
Qed.

Local Ltac side := fields; first [congruence | intros Hn; by apply Hn].

Local Ltac filters :=
  repeat first [rewrite filter_cons_True by side
               |rewrite filter_cons_False by side];
  rewrite ?filter_nil.

(** C8, as the code has it. In an empty cache whose capacity holds three
    of the entries but not all four, the estimated sizes not negative and
    their sum no more than an [int64] holds, after inserting A, B and C,
    [Get(A)] finds A and makes it the most recently used entry, so that
    inserting D evicts B: A, C and D are in the cache, B is not. *)
Theorem read_refreshes_recency c0 fuel m kA kB kC kD vA vB vC vD
    sA sB sC sD :
  reachable ValueOfKey ValueOfValue zero c0 →
  evictList c0 = [] →
  NoDup [kA; kB; kC; kD] →
  calculateEntrySize ValueOfKey ValueOfValue fuel m kA vA = Done sA →
  calculateEntrySize ValueOfKey ValueOfValue fuel m kB vB = Done sB →
  calculateEntrySize ValueOfKey ValueOfValue fuel m kC vC = Done sC →
  calculateEntrySize ValueOfKey ValueOfValue fuel m kD vD = Done sD →
  0 ≤ sA → 0 ≤ sB → 0 ≤ sC → 0 ≤ sD →
  sA + sB + sC ≤ maxSize c0 →
  sA + sC + sD ≤ maxSize c0 →
  maxSize c0 < sA + sB + sC + sD ≤ Int64.max →
  ∃ c3 c3' c4,
    (c ← Cache_Set ValueOfKey ValueOfValue fuel m kA vA c0;
     c ← Cache_Set ValueOfKey ValueOfValue fuel m kB vB c;
     Cache_Set ValueOfKey ValueOfValue fuel m kC vC c) = Done c3
    ∧ Cache_Get zero kA c3 = Done (vA, true, c3')
    ∧ key <$> entries c3' = [kA; kC; kB]
    ∧ Cache_Set ValueOfKey ValueOfValue fuel m kD vD c3' = Done c4
    ∧ key <$> entries c4 = [kD; kA; kC]
    ∧ fst <$> Cache_Get zero kB c4 = Done (zero, false)
    ∧ fst <$> Cache_Get zero kA c4 = Done (vA, true).
Proof.
  intros Hwf0%reachable_WF Hempty (HAB & HAC & HAD & HBC & HBD & HCD)%NoDup_4
    HA HB HC HD ? ? ? ? H3 H3' [H4 Hmax].
  assert (Hes0 : entries c0 = []) by (unfold entries; by rewrite Hempty).
  destruct (calculateEntrySize_fuel _ _ _ _ _ HA) as [fuel' ->].
  edestruct (Set_step (S fuel') m kA vA sA c0) as (c1 & HS1 & Hwf1 & Hm1 & Hes1);
    [done..| |].
  { rewrite Hes0. keep_all. loop_stops. done. }
  edestruct (Set_step (S fuel') m kB vB sB c1) as (c2 & HS2 & Hwf2 & Hm2 & Hes2);
    [done..| |].
  { rewrite Hes1, Hm1. keep_all. loop_stops. done. }
  edestruct (Set_step (S fuel') m kC vC sC c2) as (c3 & HS3 & Hwf3 & Hm3 & Hes3);
    [done..| |].
  { rewrite Hes2, Hm2, Hm1. keep_all. loop_stops. done. }
  destruct (Get_spec kA c3 Hwf3) as (c3' & Hget & Hwf3' & Hm3' & Hes3').
  rewrite Hes3 in Hget, Hes3'. unfold seq_touch, seq_find in Hget, Hes3'.
  revert Hget Hes3'. filters. cbn [head]. unfold withoutKey. filters. fields.
  intros Hget Hes3'.
  edestruct (Set_step (S fuel') m kD vD sD c3') as (c4 & HS4 & Hwf4 & Hm4 & Hes4);
    [done..| |].
  { rewrite Hes3', Hm3', Hm3, Hm2, Hm1. keep_all. loop_once. loop_stops.
    done. }
  exists c3, c3', c4. rewrite HS1. cbn [mbind outcome_bind].
  rewrite HS2. cbn [mbind outcome_bind].
  rewrite Hes3', Hes4. repeat (split; [done|]).
  destruct (Get_spec kA c4 Hwf4) as (? & -> & _).
  destruct (Get_spec kB c4 Hwf4) as (? & -> & _).
  rewrite Hes4. unfold seq_find.
  split; cbn [fmap outcome_fmap fst]; filters; done.
Qed.

(** *** A capacity that overflowed *)

Lemma Set_diverges_on_empty c fuel0 m k v s :
  WF c → evictList c = [] → maxSize c < 0 →
  calculateEntrySize ValueOfKey ValueOfValue fuel0 m k v = Done s →
  maxSize c < s →
  ∀ fuel, Cache_Set ValueOfKey ValueOfValue fuel m k v c = OutOfFuel.
Proof.
  intros Hwf Hempty Hneg Hs Hgt fuel.
  apply (fmap_OutOfFuel entries). rewrite (entries_Set _ _ _ _ _ Hwf).
  pose proof (calculateEntrySize_inRange _ _ _ _ _ Hs) as Hrange.
  destruct (calculateEntrySize_below fuel0 fuel m k v s Hs) as [->| ->];
    [|done].
  cbn [mbind outcome_bind]. unfold entries. rewrite Hempty.
  change (omap _ []) with (@nil (entry (Key:=Key) (Value:=Value))).
  unfold seq_put, withoutKey. rewrite filter_nil.
  rewrite seq_evictLoop_unfold, sum_exact by sizes.
  rewrite decide_True by sizes.
  destruct fuel; [done|]. cbn [removelast].
  by apply seq_evictLoop_empty_diverges.
Qed.

(** C10, as the code has it. [New] takes every [maxMB] above 0 and stores
    the product with 1024 * 1024 as an [int64] holds it. When that is
    negative, [Set] on the new cache does not return for any entry whose
    estimated size is above that capacity, as every size from 0 upwards
    is: the entry is evicted and the loop goes on with the empty list. *)
Theorem negative_capacity_Set_diverges maxMB :
  0 < maxMB →
  Int64.wrap (maxMB * 1024 * 1024) < 0 →
  ∃ c, New maxMB = Done c
       ∧ maxSize c = Int64.wrap (maxMB * 1024 * 1024)
       ∧ ∀ fuel0 m k v s,
           calculateEntrySize ValueOfKey ValueOfValue fuel0 m k v = Done s →
           maxSize c < s →
           ∀ fuel, Cache_Set ValueOfKey ValueOfValue fuel m k v c
                   = OutOfFuel.
Proof.
  intros Hpos Hneg.
  assert (Hm : Int64.mul (Int64.mul maxMB 1024) 1024
               = Int64.wrap (maxMB * 1024 * 1024))
    by (unfold Int64.mul; apply wrap_mul_l).
  assert (Hnew : New (Key:=Key) (Value:=Value) maxMB
                 = Done {| store := ∅; elems := ∅; evictList := [];
                           maxSize := Int64.wrap (maxMB * 1024 * 1024);
                           currSize := 0 |})
    by (unfold New; rewrite decide_False by lia; by rewrite Hm).
  eexists. split; [exact Hnew|]. split; [done|].
  intros fuel0 m k v s Hs Hgt.
  eapply Set_diverges_on_empty; [by eapply New_WF|done..].
Qed.

End CacheProps.

(** ** Construction *)

(** X24. For [maxMB] from 1 to [2^43 - 1], [New] returns a cache with
    capacity [maxMB * 1024 * 1024], an empty index, an empty list and
    total 0. For every [maxMB] above 0 it returns such a cache with the
    capacity the product leaves in an [int64]. For [maxMB] of 0 or less it
    panics and returns no cache. *)
Theorem New_spec {Key Value : Type} `{Countable Key} (maxMB : Z) :
  (0 < maxMB < 2 ^ 43 →
   New (Key := Key) (Value := Value) maxMB
   = Done {| store := ∅; elems := ∅; evictList := [];
             maxSize := maxMB * 1024 * 1024; currSize := 0 |})
  ∧ (0 < maxMB →
     New (Key := Key) (Value := Value) maxMB
     = Done {| store := ∅; elems := ∅; evictList := [];
               maxSize := Int64.wrap (maxMB * 1024 * 1024); currSize := 0 |})
  ∧ (maxMB ≤ 0 → New (Key := Key) (Value := Value) maxMB = Panic).
Proof.
  assert (Hm : Int64.mul (Int64.mul maxMB 1024) 1024
               = Int64.wrap (maxMB * 1024 * 1024))
    by (unfold Int64.mul; apply wrap_mul_l).
  unfold New. repeat split; intros Hmb.
  - rewrite decide_False by lia. rewrite Hm, wrap_id; [done|].
    unfold Int64.inRange, Int64.min, Int64.max. lia.
  - rewrite decide_False by lia. by rewrite Hm.
  - by rewrite decide_True.
Qed.

Lemma New_spec_witness :
  New (Key := string) (Value := Examples.IntSlice) 10 = Done Examples.cache0.
Proof.
  apply (proj1 (New_spec (Key := string) (Value := Examples.IntSlice) 10)).
  lia.
Defined.

(** C5. The claim, that the capacity is [maxMB * 1024 * 1024] for every
    [maxMB] above 0, against the code at [maxMB = 2^43]: [New] passes its
    guard and returns a cache whose capacity is [-2^63] bytes, not
    [2^43 * 1024 * 1024]; the product is not checked for overflow. *)
Lemma New_capacity_overflows :
  New (Key := string) (Value := Examples.IntSlice) (2 ^ 43)
  = Done Examples.cacheOverflow
  ∧ maxSize Examples.cacheOverflow = - 2 ^ 63
  ∧ maxSize Examples.cacheOverflow ≠ 2 ^ 43 * 1024 * 1024.
Proof. split; [reflexivity|]. split; [reflexivity|discriminate]. Qed.

(** ** Strings *)

(** C9, as the code has it. In [govault.go] the estimate for a string is
    the size of the string header plus the number of bytes of the string,
    for every string whose length leaves room for the header in an [int64];
    so a longer string has a larger estimate, and that is what [Set] adds
    to the size of the key. In [govault/cache.go] the estimate of an entry
    is the same for all strings. *)
Theorem string_size_is_header_plus_length :
  (∀ fuel m (s : string),
     Z.of_nat (String.length s) ≤ Int64.max - unsafe.Sizeof_string →
     calculateSize (S fuel) m (reflect.VString s)
     = Done (unsafe.Sizeof_string + Z.of_nat (String.length s)))
  ∧ (∀ fuel m (s1 s2 : string) z1 z2,
       (String.length s1 < String.length s2)%nat →
       Z.of_nat (String.length s2) ≤ Int64.max - unsafe.Sizeof_string →
       calculateSize (S fuel) m (reflect.VString s1) = Done z1 →
       calculateSize (S fuel) m (reflect.VString s2) = Done z2 →
       z1 < z2)
  ∧ (∀ (Key : Type) (ValueOfKey : Key → reflect.Value) fuel m k ks
       (s : string),
       calculateSize (S fuel) m (ValueOfKey k) = Done ks →
       Z.of_nat (String.length s) ≤ Int64.max - unsafe.Sizeof_string →
       calculateEntrySize ValueOfKey reflect.VString (S fuel) m k s
       = Done (Int64.add ks
                 (unsafe.Sizeof_string + Z.of_nat (String.length s))))
  ∧ (∀ (Sizeof_Key Sizeof_Value : Z) (k s1 s2 : string),
       cache_go.calculateEntrySize Sizeof_Key Sizeof_Value k s1
       = cache_go.calculateEntrySize Sizeof_Key Sizeof_Value k s2).
Proof.
  assert (Hsize : ∀ fuel m (s : string),
    Z.of_nat (String.length s) ≤ Int64.max - unsafe.Sizeof_string →
    calculateSize (S fuel) m (reflect.VString s)
    = Done (unsafe.Sizeof_string + Z.of_nat (String.length s))).
  { intros fuel m s Hlen. cbn [calculateSize reflect.Kind_of reflect.String_of].
    unfold Int64.add. rewrite wrap_id; [done|].
    unfold Int64.inRange, Int64.min, Int64.max, unsafe.Sizeof_string in *.
    lia. }
  split; [done|]. split; [|split].
  - intros fuel m s1 s2 z1 z2 Hlt Hlen. rewrite !Hsize by lia.
    intros [= <-] [= <-]. lia.
  - intros Key ValueOfKey fuel m k ks s Hks Hlen. unfold calculateEntrySize.
    rewrite Hks. cbn [mbind outcome_bind]. by rewrite Hsize.
  - done.
Qed.

Lemma string_size_is_header_plus_length_witness :
  calculateSize 1 ∅ (reflect.VString "value_a") = Done 23.
Proof.
  apply (proj1 string_size_is_header_plus_length 0%nat ∅ "value_a"%string).
  vm_compute. discriminate.
Defined.

(** C9 as stated fails for [govault/cache.go]: in a [Cache[string, string]]
    the empty string and a string of eight bytes are both estimated at 32
    with their key. *)
Lemma cache_go_size_ignores_length :
  cache_go.calculateEntrySize 16 16 "k"%string ""%string = 32
  ∧ cache_go.calculateEntrySize 16 16 "k"%string "abcdefgh"%string = 32.
Proof. split; reflexivity. Qed.

(** ** Runs of the cache of the examples *)

Section Runs.

Import Examples.

Local Abbreviation set := (Cache_Set ValueOf_string ValueOf_IntSlice).
Local Abbreviation get := (Cache_Get nilSlice).
Local Abbreviation reach :=
  (reachable ValueOf_string ValueOf_IntSlice nilSlice).

(** The examples of [govault_test.go]: after [Set("key-1", ...)], [Get]
    finds the slice; after [Delete], [Get] returns a nil slice and false. *)
Example ExampleCache_Delete :
  ∃ c2 c3,
    New (Key := string) (Value := IntSlice) 10 = Done cache0
    ∧ set 2 ∅ "key-1"%string oneToFive cache0 = Done cache1
    ∧ get "key-1"%string cache1 = Done (oneToFive, true, c2)
    ∧ Cache_Delete "key-1"%string c2 = Done c3
    ∧ get "key-1"%string c3 = Done (nilSlice, false, c3).
Proof. eexists _, _. repeat split; vm_compute; reflexivity. Qed.

Lemma currSize_is_sum_of_sizes_witness :
  currSize cache1 = Int64.sum (size <$> entries cache1)
  ∧ (Int64.inRange (Int64.sumZ (size <$> entries cache1)) →
     currSize cache1 = Int64.sumZ (size <$> entries cache1)).
Proof.
  apply (currSize_is_sum_of_sizes ValueOf_string ValueOf_IntSlice nilSlice).
  apply (reach_step _ _ _ (OpSet 2 ∅ "key-1"%string oneToFive) cache0);
    [|reflexivity].
  apply (reach_New _ _ _ 10). reflexivity.
Defined.

Lemma index_list_bijection_witness :
  NoDup (evictList cache1)
  ∧ (∀ k e, store cache1 !! k = Some e →
       e ∈ evictList cache1
       ∧ ∃ ent, elems cache1 !! e = Some ent ∧ key ent = k)
  ∧ (∀ e, e ∈ evictList cache1 →
       ∃ ent, elems cache1 !! e = Some ent
              ∧ store cache1 !! key ent = Some e)
  ∧ (∀ k e e' ent', store cache1 !! k = Some e → e' ∈ evictList cache1 →
       elems cache1 !! e' = Some ent' → key ent' = k → e' = e).
Proof.
  apply (index_list_bijection ValueOf_string ValueOf_IntSlice nilSlice).
  apply (reach_step _ _ _ (OpSet 2 ∅ "key-1"%string oneToFive) cache0);
    [|reflexivity].
  apply (reach_New _ _ _ 10). reflexivity.
Defined.

(** Here the loop goes round once: the second entry brings the total to
    1280050, above the 1048576 of the capacity, and "a" is evicted. *)
Lemma Set_returns_witness :
  ∃ c', set 2 ∅ "b"%string (make0 40000) cacheA = Done c'
        ∧ maxSize c' = maxSize cacheA
        ∧ currSize c' ≤ maxSize c'.
Proof.
  apply (Set_returns ValueOf_string ValueOf_IntSlice nilSlice cacheA
           2 ∅ "b"%string (make0 40000) 640025).
  - apply (reach_step _ _ _ (OpSet 2 ∅ "a"%string (make0 40000)) cache1MB);
      [|reflexivity].
    apply (reach_New _ _ _ 1). reflexivity.
  - vm_compute. discriminate.
  - reflexivity.
  - lia.
  - simpl. lia.
Defined.

(** C3. The claim, that [Set] always returns, against the code at
    [New(1 << 43)]: the product [maxMB * 1024 * 1024] of [New] overflows
    and the capacity stored is [-2^63]; in that cache, which [New]
    returns, [Set("a", nil)] evicts the entry it inserted and then goes
    round the loop with the empty list, the total 0 above the capacity,
    for every budget: it never returns. *)
Lemma Set_never_returns_after_New_2_43 :
  New (Key := string) (Value := IntSlice) (2 ^ 43) = Done cacheOverflow
  ∧ reach cacheOverflow
  ∧ ∀ fuel, set fuel ∅ "a"%string nilSlice cacheOverflow = OutOfFuel.
Proof.
  split; [reflexivity|]. split; [by apply (reach_New _ _ _ (2 ^ 43))|].
  apply (Set_diverges_on_empty _ _ cacheOverflow 1 ∅ _ _ 25).
  - by apply (New_WF (2 ^ 43)).
  - reflexivity.
  - reflexivity.
  - reflexivity.
  - reflexivity.
Qed.

(** The empty string and the nil slice in a cache that holds an entry;
    the hypotheses on depth and capacity hold there. *)
Lemma operations_return_witness :
  (∃ r, get ""%string cache1 = Done r)
  ∧ (∃ c', Cache_Delete ""%string cache1 = Done c')
  ∧ (∃ s, ∀ fuel, (2 ≤ fuel)%nat →
       calculateEntrySize ValueOf_string ValueOf_IntSlice fuel ∅
         ""%string nilSlice = Done s)
  ∧ (∀ fuel, (2 ≤ fuel)%nat → (length (evictList cache1) < fuel)%nat →
       ∃ c', set fuel ∅ ""%string nilSlice cache1 = Done c').
Proof.
  destruct (operations_return ValueOf_string ValueOf_IntSlice nilSlice cache1
              2 ∅ ""%string nilSlice) as (Hget & Hdelete & Hfinite).
  - apply (reach_step _ _ _ (OpSet 2 ∅ "key-1"%string oneToFive) cache0);
      [|reflexivity].
    apply (reach_New _ _ _ 10). reflexivity.
  - destruct Hfinite as [Hsize Hset]; [reflexivity..|].
    split; [exact Hget|]. split; [exact Hdelete|]. split; [exact Hsize|].
    apply Hset. vm_compute. discriminate.
Defined.

(** [Get] and [Delete] return also in the cache of [New(1 << 43)], whose
    capacity is negative. *)
Example Get_Delete_return_after_New_2_43 :
  get "a"%string cacheOverflow = Done (nilSlice, false, cacheOverflow)
  ∧ Cache_Delete "a"%string cacheOverflow = Done cacheOverflow.
Proof. split; reflexivity. Qed.

Lemma Set_then_Get_witness :
  ∃ c' c'', set 2 ∅ "key-2"%string oneToFive cache1 = Done c'
            ∧ get "key-2"%string c' = Done (oneToFive, true, c'').
Proof.
  apply (Set_then_Get ValueOf_string ValueOf_IntSlice nilSlice cache1
           2 ∅ "key-2"%string oneToFive 189).
  - apply (reach_step _ _ _ (OpSet 2 ∅ "key-1"%string oneToFive) cache0);
      [|reflexivity].
    apply (reach_New _ _ _ 10). reflexivity.
  - reflexivity.
  - vm_compute. discriminate.
  - lia.
  - simpl. lia.
Defined.

(** C6 as stated fails for an entry larger than the cache: in a cache of
    1 MB, [Set("k", make([]int, 0, 1 << 20))] estimates more than 16 MB,
    evicts the entry again, and [Get("k")] finds nothing. *)
Lemma Set_then_Get_misses_oversized :
  ∃ c',
    New (Key := string) (Value := IntSlice) 1 = Done cache1MB
    ∧ calculateEntrySize ValueOf_string ValueOf_IntSlice 2 ∅
        "k"%string (make0 (2 ^ 20)) = Done 16777241
    ∧ set 2 ∅ "k"%string (make0 (2 ^ 20)) cache1MB = Done c'
    ∧ get "k"%string c' = Done (nilSlice, false, c').
Proof. eexists. repeat split; vm_compute; reflexivity. Qed.

(** *** A value that reaches itself *)

Lemma selfLoop_Elem :
  reflect.Elem selfLoop (reflect.VPtr (Some 1%positive))
  = Done (reflect.VStruct [reflect.VPtr (Some 1%positive)]).
Proof. reflexivity. Qed.

Lemma selfLoop_unbounded fuel :
  calculateSize fuel selfLoop (reflect.VPtr (Some 1%positive)) = OutOfFuel
  ∧ calculateSize fuel selfLoop
      (reflect.VStruct [reflect.VPtr (Some 1%positive)]) = OutOfFuel.
Proof.
  induction fuel as [|fuel [IHp IHs]]; [done|]. split.
  - cbn [calculateSize reflect.Kind_of reflect.IsNil mbind outcome_bind].
    rewrite selfLoop_Elem. cbn [mbind outcome_bind]. by rewrite IHs.
  - cbn [calculateSize reflect.Kind_of reflect.NumField reflect.Field
           mbind outcome_bind length seq forEach lookup list_lookup].
    by rewrite IHp.
Qed.

(** C4 as stated fails for a value that reaches itself. After
    [n := &Node{}; n.next = n] the estimation of [n] does not return for
    any budget (in Go the recursion ends in a fatal stack overflow), and
    neither does [Set("k", n)]. *)
Lemma Set_never_returns_on_cyclic_value :
  (∀ fuel, calculateSize fuel selfLoop (ValueOf_NodePtr (Some 1%positive))
           = OutOfFuel)
  ∧ ∃ c, New (Key := string) (Value := option reflect.addr) 10 = Done c
         ∧ ∀ fuel, Cache_Set ValueOf_string ValueOf_NodePtr fuel selfLoop
                     "k"%string (Some 1%positive) c = OutOfFuel.
Proof.
  split; [intros fuel; apply selfLoop_unbounded|].
  eexists. split; [reflexivity|]. intros fuel.
  unfold Cache_Set, calculateEntrySize.
  destruct fuel as [|fuel]; [done|].
  destruct (selfLoop_unbounded (S fuel)) as [Hp _].
  unfold ValueOf_NodePtr. rewrite Hp. done.
Qed.

(** *** Four keys *)

Lemma lru_evicts_least_recent_witness :
  ∃ c3 c4,
    (c ← set 2 ∅ "A"%string (make0 20000) cache1MB;
     c ← set 2 ∅ "B"%string (make0 20000) c;
     set 2 ∅ "C"%string (make0 20000) c) = Done c3
    ∧ key <$> entries c3 = ["C"; "B"; "A"]%string
    ∧ set 2 ∅ "D"%string (make0 20000) c3 = Done c4
    ∧ key <$> entries c4 = ["D"; "C"; "B"]%string
    ∧ fst <$> get "A"%string c4 = Done (nilSlice, false)
    ∧ fst <$> get "B"%string c4 = Done (make0 20000, true)
    ∧ fst <$> get "C"%string c4 = Done (make0 20000, true)
    ∧ fst <$> get "D"%string c4 = Done (make0 20000, true).
Proof.
  apply (lru_evicts_least_recent ValueOf_string ValueOf_IntSlice nilSlice
           cache1MB 2 ∅ "A"%string "B"%string "C"%string "D"%string
           (make0 20000) (make0 20000) (make0 20000) (make0 20000)
           320025 320025 320025 320025).
  - apply (reach_New _ _ _ 1). reflexivity.
  - reflexivity.
  - compute_done.
  - reflexivity.
  - reflexivity.
  - reflexivity.
  - reflexivity.
  - lia.
  - lia.
  - lia.
  - lia.
  - vm_compute. discriminate.
  - vm_compute. discriminate.
  - split; vm_compute; [reflexivity|discriminate].
Defined.

(** C7 as stated fails: when the capacity holds two of the entries (here
    1 MB and entries of 480025 bytes), inserting C already evicts A, and
    inserting D evicts B; C and D are left. *)
Lemma capacity_of_two_keeps_two :
  ∃ c3 c4,
    New (Key := string) (Value := IntSlice) 1 = Done cache1MB
    ∧ calculateEntrySize ValueOf_string ValueOf_IntSlice 2 ∅
        "A"%string (make0 30000) = Done 480025
    ∧ 2 * 480025 ≤ maxSize cache1MB < 3 * 480025
    ∧ setAll 2 [("A"%string, make0 30000); ("B"%string, make0 30000);
                ("C"%string, make0 30000)] (Done cache1MB) = Done c3
    ∧ key <$> entries c3 = ["C"; "B"]%string
    ∧ set 2 ∅ "D"%string (make0 30000) c3 = Done c4
    ∧ key <$> entries c4 = ["D"; "C"]%string
    ∧ fst <$> get "B"%string c4 = Done (nilSlice, false).
Proof.
  eexists _, _. split; [reflexivity|]. split; [reflexivity|]. split; [done|].
  repeat split; vm_compute; reflexivity.
Qed.

Lemma read_refreshes_recency_witness :
  ∃ c3 c3' c4,
    (c ← set 2 ∅ "A"%string (make0 20000) cache1MB;
     c ← set 2 ∅ "B"%string (make0 20000) c;
     set 2 ∅ "C"%string (make0 20000) c) = Done c3
    ∧ get "A"%string c3 = Done (make0 20000, true, c3')
    ∧ key <$> entries c3' = ["A"; "C"; "B"]%string
    ∧ set 2 ∅ "D"%string (make0 20000) c3' = Done c4
    ∧ key <$> entries c4 = ["D"; "A"; "C"]%string
    ∧ fst <$> get "B"%string c4 = Done (nilSlice, false)
    ∧ fst <$> get "A"%string c4 = Done (make0 20000, true).
Proof.
  apply (read_refreshes_recency ValueOf_string ValueOf_IntSlice nilSlice
           cache1MB 2 ∅ "A"%string "B"%string "C"%string "D"%string
           (make0 20000) (make0 20000) (make0 20000) (make0 20000)
           320025 320025 320025 320025).
  - apply (reach_New _ _ _ 1). reflexivity.
  - reflexivity.
  - compute_done.
  - reflexivity.
  - reflexivity.
  - reflexivity.
  - reflexivity.
  - lia.
  - lia.
  - lia.
  - lia.
  - vm_compute. discriminate.
  - vm_compute. discriminate.
  - split; vm_compute; [reflexivity|discriminate].
Defined.

(** C8 as stated fails: when the capacity holds two of the entries,
    inserting C has evicted A, so [Get(A)] finds nothing and moves
    nothing; inserting D evicts B, and A is not in the cache either. *)
Lemma capacity_of_two_read_misses :
  ∃ c3 c4,
    New (Key := string) (Value := IntSlice) 1 = Done cache1MB
    ∧ calculateEntrySize ValueOf_string ValueOf_IntSlice 2 ∅
        "A"%string (make0 30000) = Done 480025
    ∧ 2 * 480025 ≤ maxSize cache1MB < 3 * 480025
    ∧ setAll 2 [("A"%string, make0 30000); ("B"%string, make0 30000);
                ("C"%string, make0 30000)] (Done cache1MB) = Done c3
    ∧ get "A"%string c3 = Done (nilSlice, false, c3)
    ∧ set 2 ∅ "D"%string (make0 30000) c3 = Done c4
    ∧ key <$> entries c4 = ["D"; "C"]%string
    ∧ fst <$> get "A"%string c4 = Done (nilSlice, false).
Proof.
  eexists _, _. split; [reflexivity|]. split; [reflexivity|]. split; [done|].
  repeat split; vm_compute; reflexivity.
Qed.

(** *** Capacities that overflowed *)

Lemma negative_capacity_Set_diverges_witness :
  ∃ c, New (Key := string) (Value := IntSlice) (2 ^ 43) = Done c
       ∧ maxSize c = Int64.wrap (2 ^ 43 * 1024 * 1024)
       ∧ ∀ fuel0 m k v s,
           calculateEntrySize ValueOf_string ValueOf_IntSlice fuel0 m k v
           = Done s →
           maxSize c < s →
           ∀ fuel, set fuel m k v c = OutOfFuel.
Proof.
  apply (negative_capacity_Set_diverges ValueOf_string ValueOf_IntSlice
           (2 ^ 43)).
  - lia.
  - vm_compute. reflexivity.
Defined.

(** C10 as stated fails for some [maxMB] from [2^43] upwards: at
    [2^44 + 1] the product leaves the capacity 1 MB, at [2^44] it leaves
    0, and [Set] returns in both caches. *)
Lemma overflowed_capacity_can_be_positive :
  ∃ c c' d d',
    New (Key := string) (Value := IntSlice) (2 ^ 44 + 1) = Done c
    ∧ maxSize c = 1048576
    ∧ set 2 ∅ "a"%string nilSlice c = Done c'
    ∧ New (Key := string) (Value := IntSlice) (2 ^ 44) = Done d
    ∧ maxSize d = 0
    ∧ set 2 ∅ "a"%string nilSlice d = Done d'.
Proof. eexists _, _, _, _. repeat split; vm_compute; reflexivity. Qed.

End Runs.

(** * Further properties of the code *)

(** ** Get and Delete *)

Section GetDelete.

Context {Key Value : Type} `{Countable Key}.

Implicit Types (c : Cache (Key := Key) (Value := Value)).
Implicit Types (es : list (entry (Key := Key) (Value := Value))).
Implicit Types (l : list elem) (e : elem) (k : Key) (v : Value).

Lemma seq_find_Some k es ent :
  seq_find k es = Some ent → ent ∈ es ∧ key ent = k.
Proof.
  unfold seq_find. intros Hhead%head_Some_elem_of.
  apply list_elem_of_filter in Hhead. tauto.
Qed.

Lemma withoutKey_withoutKey k es :
  withoutKey k (withoutKey k es) = withoutKey k es.
Proof.
  unfold withoutKey. apply filter_all.
  by intros x [Hx _]%list_elem_of_filter.
Qed.

Lemma withoutKey_perm es ent :
  NoDup (key <$> es) → ent ∈ es →
  ent :: withoutKey (key ent) es ≡ₚ es.
Proof.
  induction es as [|x es IH]; intros Hnd Hin; [by inversion Hin|].
  rewrite fmap_cons in Hnd. apply NoDup_cons in Hnd as [Hx Hnd].
  unfold withoutKey in *. apply elem_of_cons in Hin as [->|Hin].
  - rewrite filter_cons_False by (intros Hn; by apply Hn).
    fold (withoutKey (key x) es). by rewrite withoutKey_id.
  - rewrite filter_cons_True.
    + rewrite Permutation_swap. by rewrite IH.
    + intros Heq. apply Hx. rewrite Heq. by apply list_elem_of_fmap_2.
Qed.

Lemma seq_find_withoutKey k k' es :
  k' ≠ k → seq_find k' (withoutKey k es) = seq_find k' es.
Proof.
  intros Hne. unfold seq_find, withoutKey. f_equal.
  induction es as [|x es IH]; [done|].
  destruct (decide (key x = k)) as [Hk|Hk].
  - rewrite filter_cons_False by (intros Hn; by apply Hn).
    rewrite IH. by rewrite (filter_cons_False _ x) by congruence.
  - rewrite filter_cons_True by done.
    destruct (decide (key x = k')) as [Hk'|Hk'].
    + by rewrite !(filter_cons_True (λ y, key y = k')), IH by done.
    + by rewrite !(filter_cons_False (λ y, key y = k')), IH by done.
Qed.

Lemma seq_find_touch k k' es :
  seq_find k (seq_touch k' es) = seq_find k es.
Proof.
  unfold seq_touch. destruct (seq_find k' es) as [ent|] eqn:Hfind; [|done].
  destruct (seq_find_Some _ _ _ Hfind) as [Hin Hkey].
  destruct (decide (k = k')) as [->|Hne].
  - rewrite Hfind. unfold seq_find. by rewrite filter_cons_True.
  - unfold seq_find at 1. rewrite filter_cons_False by congruence.
    by apply seq_find_withoutKey.
Qed.

Lemma Remove_Remove e l : Remove e (Remove e l) = Remove e l.
Proof.
  unfold Remove. apply filter_all. by intros x [Hx _]%list_elem_of_filter.
Qed.

Lemma MoveToFront_MoveToFront e l :
  MoveToFront e (MoveToFront e l) = MoveToFront e l.
Proof.
  unfold MoveToFront. destruct (decide (e ∈ l)) as [Hin|Hnotin].
  - rewrite decide_True by left. f_equal. unfold Remove at 1.
    rewrite filter_cons_False by (intros Hn; by apply Hn).
    apply Remove_Remove.
  - by rewrite decide_False.
Qed.

Lemma WF_store_None c k :
  WF c → k ∉ key <$> entries c → store c !! k = None.
Proof.
  intros Hwf Hk. destruct (store c !! k) as [e|] eqn:Hs; [|done].
  destruct (WF_present c k e Hwf Hs) as (ent & _ & Hkey & _ & Hin).
  destruct Hk. rewrite <- Hkey. by apply list_elem_of_fmap_2.
Qed.

Lemma WF_entry_store c ent :
  WF c → ent ∈ entries c →
  ∃ e, store c !! key ent = Some e ∧ elems c !! e = Some ent.
Proof.
  intros Hwf (e & He & Hent)%list_elem_of_omap.
  destruct (wf_list_store c Hwf e He) as (ent' & Hent' & Hs).
  simplify_eq. eauto.
Qed.

Variable ValueOfKey : Key → reflect.Value.
Variable ValueOfValue : Value → reflect.Value.
Variable zero : Value.

Lemma Get_fst c k :
  WF c →
  fst <$> Cache_Get zero k c
  = Done (match seq_find k (entries c) with
          | Some ent => (value ent, true)
          | None => (zero, false)
          end).
Proof. intros Hwf. by destruct (Get_spec zero k c Hwf) as (c' & -> & _). Qed.

(** X1. [Get] finds the keys of the entries in the list and no others: for
    a key without an entry it returns the zero value and false and leaves
    the cache as it is; for the key of an entry it returns that entry's
    value and true. *)
Theorem Get_finds_exactly_the_entries c k :
  reachable ValueOfKey ValueOfValue zero c →
  (k ∉ key <$> entries c → Cache_Get zero k c = Done (zero, false, c))
  ∧ (∀ ent, ent ∈ entries c → key ent = k →
       ∃ c', Cache_Get zero k c = Done (value ent, true, c')).
Proof.
  intros Hwf%reachable_WF. split.
  - intros Hk. unfold Cache_Get. by rewrite (WF_store_None c k Hwf Hk).
  - intros ent Hin <-. destruct (Get_spec zero (key ent) c Hwf) as (c' & -> & _).
    rewrite (seq_find_elem _ ent) by (done || by apply WF_keys_NoDup). eauto.
Qed.

(** X2. [Get] changes nothing but the order of the list: index, elements,
    running total and capacity stay as they are, the list holds the same
    entries, and the entries of the other keys keep their order. *)
Theorem Get_changes_order_only c k :
  reachable ValueOfKey ValueOfValue zero c →
  ∃ v b c', Cache_Get zero k c = Done (v, b, c')
    ∧ store c' = store c ∧ elems c' = elems c
    ∧ currSize c' = currSize c ∧ maxSize c' = maxSize c
    ∧ entries c' ≡ₚ entries c
    ∧ withoutKey k (entries c') = withoutKey k (entries c).
Proof.
  intros Hwf%reachable_WF.
  destruct (Get_spec zero k c Hwf) as (c' & Hget & _ & Hmax & Hes).
  set (r := match seq_find k (entries c) with
            | Some ent => (value ent, true) | None => (zero, false) end)
    in Hget.
  destruct r as [v b]. exists v, b, c'. split; [exact Hget|].
  assert (Hfields : store c' = store c ∧ elems c' = elems c
                    ∧ currSize c' = currSize c).
  { unfold Cache_Get in Hget. destruct (store c !! k) as [e|].
    - apply bind_Done in Hget as (ent & _ & [= _ _ <-]). done.
    - by injection Hget as _ _ <-. }
  destruct Hfields as (-> & -> & ->). repeat split; [done|..];
    rewrite Hes; unfold seq_touch;
    destruct (seq_find k (entries c)) as [ent|] eqn:Hfind; try done;
    destruct (seq_find_Some _ _ _ Hfind) as [Hin <-].
  - apply withoutKey_perm; [by apply WF_keys_NoDup|done].
  - unfold withoutKey at 1. rewrite filter_cons_False by (intros Hn; by apply Hn).
    apply withoutKey_withoutKey.
Qed.

(** X3. A second [Get] of the same key returns what the first returned and
    leaves the cache as the first left it. *)
Theorem Get_twice c k :
  reachable ValueOfKey ValueOfValue zero c →
  ∃ v b c', Cache_Get zero k c = Done (v, b, c')
            ∧ Cache_Get zero k c' = Done (v, b, c').
Proof.
  intros Hwf%reachable_WF. unfold Cache_Get.
  destruct (store c !! k) as [e|] eqn:Hk.
  - destruct (WF_present c k e Hwf Hk) as (ent & Hent & _).
    exists (value ent), true,
      {| store := store c; elems := elems c;
         evictList := MoveToFront e (evictList c);
         maxSize := maxSize c; currSize := currSize c |}.
    unfold elemEntry. cbn [store elems evictList maxSize currSize].
    rewrite Hk, Hent, MoveToFront_MoveToFront. done.
  - exists zero, false, c. by rewrite Hk.
Qed.

(** X4. [Get] of one key does not change what [Get] of any key returns. *)
Theorem Get_leaves_other_keys c k k' :
  reachable ValueOfKey ValueOfValue zero c →
  ∃ r c', Cache_Get zero k' c = Done (r, c')
          ∧ fst <$> Cache_Get zero k c' = fst <$> Cache_Get zero k c.
Proof.
  intros Hwf%reachable_WF.
  destruct (Get_spec zero k' c Hwf) as (c' & Hget & Hwf' & _ & Hes).
  eexists _, c'. split; [exact Hget|].
  by rewrite !Get_fst, Hes, seq_find_touch.
Qed.

(** X5. After [Delete] the key is gone: [Get] returns the zero value and
    false, a second [Delete] changes nothing; and [Delete] of a key that
    has no entry leaves the cache as it is. *)
Theorem Delete_then_gone c k :
  reachable ValueOfKey ValueOfValue zero c →
  ∃ c', Cache_Delete k c = Done c'
        ∧ Cache_Delete k c' = Done c'
        ∧ Cache_Get zero k c' = Done (zero, false, c')
        ∧ (k ∉ key <$> entries c → c' = c).
Proof.
  intros Hwf%reachable_WF.
  destruct (Delete_spec k c Hwf) as (c' & Hdel & Hwf' & _ & Hes).
  exists c'. split; [done|].
  assert (Hgone : store c' !! k = None).
  { apply WF_store_None; [done|]. rewrite Hes.
    intros (x & Hkey & [Hne _]%list_elem_of_filter)%list_elem_of_fmap.
    by apply Hne. }
  unfold Cache_Delete, Cache_Get. rewrite Hgone. repeat split.
  intros Hk. unfold Cache_Delete in Hdel.
  rewrite (WF_store_None c k Hwf Hk) in Hdel. by injection Hdel.
Qed.

(** X6. [Delete] of the key of an entry takes exactly that entry out: the
    other entries stay in their order, the list is one shorter, the
    running total goes down by the recorded size of the entry, the key
    leaves the index, and the capacity stays. *)
Theorem Delete_removes_one_entry c k ent :
  reachable ValueOfKey ValueOfValue zero c →
  ent ∈ entries c → key ent = k →
  ∃ c', Cache_Delete k c = Done c'
        ∧ entries c' = withoutKey k (entries c)
        ∧ (length (entries c') + 1 = length (entries c))%nat
        ∧ currSize c' = Int64.sub (currSize c) (size ent)
        ∧ store c' = delete k (store c)
        ∧ maxSize c' = maxSize c.
Proof.
  intros Hwf%reachable_WF Hin <-.
  destruct (Delete_spec (key ent) c Hwf) as (c' & Hdel & _ & Hmax & Hes).
  exists c'. split; [done|]. split; [done|]. split.
  { rewrite Hes.
    pose proof (withoutKey_perm (entries c) ent (WF_keys_NoDup c Hwf) Hin)
      as Hperm.
    apply Permutation_length in Hperm. simpl in Hperm. lia. }
  destruct (WF_entry_store c ent Hwf Hin) as (e & Hs & Hent).
  unfold Cache_Delete, elemEntry in Hdel. rewrite Hs, Hent in Hdel.
  injection Hdel as <-. done.
Qed.

(** X7. [Delete] of one key does not change what [Get] of another key
    returns. *)
Theorem Delete_leaves_other_keys c k k' :
  reachable ValueOfKey ValueOfValue zero c →
  k' ≠ k →
  ∃ c', Cache_Delete k c = Done c'
        ∧ fst <$> Cache_Get zero k' c' = fst <$> Cache_Get zero k' c.
Proof.
  intros Hwf%reachable_WF Hne.
  destruct (Delete_spec k c Hwf) as (c' & Hdel & Hwf' & _ & Hes).
  exists c'. split; [done|].
  by rewrite !Get_fst, Hes, seq_find_withoutKey.
Qed.

End GetDelete.

(** ** Set and the eviction loop *)

Section SetEvict.

Context {Key Value : Type} `{Countable Key}.

Implicit Types (c : Cache (Key := Key) (Value := Value)).
Implicit Types (es : list (entry (Key := Key) (Value := Value))).
Implicit Types (l : list elem) (e : elem) (k : Key) (v : Value).

Lemma evictLoop_exit fuel c c' :
  evictLoop fuel c = Done c' → currSize c' ≤ maxSize c'.
Proof.
  revert c. induction fuel as [|fuel IH]; intros c;
    rewrite evictLoop_unfold; case_decide as Hgt; try done.
  - intros [= <-]. lia.
  - intros (c1 & _ & Hc1)%bind_Done. by eapply IH.
  - intros [= <-]. lia.
Qed.

Lemma evictLoop_elems fuel c c' :
  evictLoop fuel c = Done c' →
  elems c' = elems c ∧ evictList c' ⊆ evictList c.
Proof.
  revert c. induction fuel as [|fuel IH]; intros c;
    rewrite evictLoop_unfold; case_decide as Hgt; try done;
    try (by intros [= <-]).
  intros (c1 & Hc1 & Hloop)%bind_Done.
  destruct (IH _ Hloop) as [-> Hsub].
  unfold Cache_evict in Hc1. destruct (Back (evictList c)) as [e|].
  - apply bind_Done in Hc1 as (ent & _ & [= <-]). split; [done|].
    etrans; [exact Hsub|]. cbn [evictList]. unfold Remove.
    apply list_subseteq_filter.
  - by injection Hc1 as <-.
Qed.

Lemma removelast_take {A} (l : list A) :
  removelast l = take (pred (length l)) l.
Proof. apply removelast_firstn_len. Qed.

(** What the loop leaves is the longest beginning of the list whose sizes
    sum up to the capacity at most. *)
Lemma seq_evictLoop_prefix fuel cap es es' :
  seq_evictLoop fuel cap es = Done es' →
  ∃ n, es' = take n es
       ∧ Int64.sum (size <$> es') ≤ cap
       ∧ ∀ j, (n < j ≤ length es)%nat →
              Int64.sum (size <$> take j es) > cap.
Proof.
  revert es. induction fuel as [|fuel IH]; intros es;
    rewrite seq_evictLoop_unfold; case_decide as Hgt; try done.
  - intros [= <-]. exists (length es). rewrite take_ge by done.
    split; [done|]. split; [lia|]. intros j Hj. lia.
  - intros Hloop. destruct (IH _ Hloop) as (n & -> & Hsum & Hmin).
    rewrite length_removelast in Hmin. rewrite removelast_take in *.
    destruct (decide (n ≤ pred (length es))%nat) as [Hn|Hn].
    + exists n. rewrite take_take, Nat.min_l in * by done.
      split; [done|]. split; [done|]. intros j Hj.
      destruct (decide (j = length es)) as [->|Hne].
      * by rewrite take_ge.
      * specialize (Hmin j). rewrite take_take, Nat.min_l in Hmin by lia.
        apply Hmin. lia.
    + exists (pred (length es)). rewrite take_take, Nat.min_r in * by lia.
      split; [done|]. split; [done|]. intros j Hj.
      assert (j = length es) as -> by lia. by rewrite take_ge.
  - intros [= <-]. exists (length es). rewrite take_ge by done.
    split; [done|]. split; [lia|]. intros j Hj. lia.
Qed.

Variable ValueOfKey : Key → reflect.Value.
Variable ValueOfValue : Value → reflect.Value.
Variable zero : Value.

Lemma Set_entries_Done fuel m k v c c' :
  WF c →
  Cache_Set ValueOfKey ValueOfValue fuel m k v c = Done c' →
  ∃ s, calculateEntrySize ValueOfKey ValueOfValue fuel m k v = Done s
       ∧ seq_evictLoop fuel (maxSize c) (seq_put k v s (entries c))
         = Done (entries c').
Proof.
  intros Hwf Hset. pose proof (entries_Set ValueOfKey ValueOfValue
                                 fuel m k v c Hwf) as Heq.
  rewrite Hset in Heq.
  destruct (calculateEntrySize _ _ fuel m k v) as [s| |]; try done.
  exists s. split; [done|]. cbn [mbind outcome_bind fmap outcome_fmap] in Heq.
  by rewrite <- Heq.
Qed.

(** X8. Whatever the cache it is called on, [Set] does not return with the
    running total above the capacity. *)
Theorem Set_total_within_capacity fuel m k v c c' :
  Cache_Set ValueOfKey ValueOfValue fuel m k v c = Done c' →
  currSize c' ≤ maxSize c'.
Proof.
  unfold Cache_Set. intros (s & _ & Hset)%bind_Done.
  apply bind_Done in Hset as (c1 & _ & Hloop). by eapply evictLoop_exit.
Qed.

(** X9. [Set] evicts from the least recently used end only, and no more
    than it has to: the entries it leaves are a beginning of the list made
    of the new entry followed by the previous entries of the other keys in
    their order, and every longer beginning of that list has sizes that sum
    up to more than the capacity. *)
Theorem Set_evicts_least_recent_only fuel m k v s c c' :
  reachable ValueOfKey ValueOfValue zero c →
  calculateEntrySize ValueOfKey ValueOfValue fuel m k v = Done s →
  Cache_Set ValueOfKey ValueOfValue fuel m k v c = Done c' →
  ∃ n, entries c' = take n (seq_put k v s (entries c))
       ∧ ∀ j, (n < j ≤ length (seq_put k v s (entries c)))%nat →
              Int64.sum (size <$> take j (seq_put k v s (entries c)))
              > maxSize c.
Proof.
  intros Hwf%reachable_WF Hs Hset.
  destruct (Set_entries_Done _ _ _ _ _ _ Hwf Hset) as (s' & Hs' & Hloop).
  assert (s' = s) as -> by congruence.
  destruct (seq_evictLoop_prefix _ _ _ _ Hloop) as (n & Hn & _ & Hmin).
  eauto.
Qed.

(** X10. When the sizes of the new entry and of the previous entries of the
    other keys sum up to the capacity at most, [Set] returns without a
    round of the loop and evicts nothing: [Get] finds the new value for
    the key and what it found before for every other key. *)
Theorem Set_keeps_all_when_it_fits fuel m k v s c :
  reachable ValueOfKey ValueOfValue zero c →
  calculateEntrySize ValueOfKey ValueOfValue fuel m k v = Done s →
  Int64.sum (size <$> seq_put k v s (entries c)) ≤ maxSize c →
  ∃ c', Cache_Set ValueOfKey ValueOfValue fuel m k v c = Done c'
        ∧ entries c' = seq_put k v s (entries c)
        ∧ fst <$> Cache_Get zero k c' = Done (v, true)
        ∧ ∀ k', k' ≠ k →
            fst <$> Cache_Get zero k' c' = fst <$> Cache_Get zero k' c.
Proof.
  intros Hwf%reachable_WF Hs Hfit.
  destruct (Set_step ValueOfKey ValueOfValue fuel m k v s c
              (seq_put k v s (entries c)) Hwf Hs)
    as (c' & Hset & Hwf' & _ & Hes).
  { rewrite seq_evictLoop_unfold. by rewrite decide_False by lia. }
  exists c'. split; [done|]. split; [done|].
  split.
  - rewrite Get_fst, Hes by done.
    unfold seq_put, seq_find. by rewrite filter_cons_True.
  - intros k' Hne. rewrite !Get_fst, Hes by done.
    unfold seq_put, seq_find at 1.
    rewrite filter_cons_False by (cbn [key]; congruence).
    fold (withoutKey k (entries c)). fold (seq_find k' (withoutKey k (entries c))).
    by rewrite (seq_find_withoutKey k k').
Qed.

(** X11. [Set] of a key that has an entry, with a new size that is not
    above the capacity, updates that entry in place: the index still sends
    the key to the same list element, the element now holds the new value
    and size and is first in the list, and the list has not grown. *)
Theorem Set_updates_in_place fuel m k v s c e :
  reachable ValueOfKey ValueOfValue zero c →
  store c !! k = Some e →
  calculateEntrySize ValueOfKey ValueOfValue fuel m k v = Done s →
  s ≤ maxSize c →
  (length (evictList c) ≤ fuel)%nat →
  ∃ c', Cache_Set ValueOfKey ValueOfValue fuel m k v c = Done c'
        ∧ store c' !! k = Some e
        ∧ elems c' !! e = Some {| key := k; value := v; size := s |}
        ∧ head (entries c') = Some {| key := k; value := v; size := s |}
        ∧ (length (entries c') ≤ length (entries c))%nat.
Proof.
  intros Hwf%reachable_WF Hk Hs Hcap Hfuel.
  destruct (WF_present c k e Hwf Hk) as (ent & Hent & Hkey & He & Hin).
  pose proof (calculateEntrySize_inRange _ _ _ _ _ _ _ Hs) as Hrange.
  destruct (seq_evictLoop_keeps_head fuel (maxSize c)
              {| key := k; value := v; size := s |}
              (withoutKey k (entries c))) as [es' Hes']; [done..| |].
  { pose proof (length_filter (λ x, key x ≠ k) (entries c)).
    pose proof (length_omap_le (λ e, elems c !! e) (evictList c)).
    unfold withoutKey, entries in *. lia. }
  destruct (Set_step ValueOfKey ValueOfValue fuel m k v s c _ Hwf Hs Hes')
    as (c' & Hset & Hwf' & _ & Hentries).
  exists c'. split; [done|].
  (* the state between the update and the loop *)
  unfold Cache_Set in Hset. rewrite Hs in Hset. cbn [mbind outcome_bind] in Hset.
  destruct (put_WF k v s c Hwf) as (c1 & Hput & Hwf1 & _ & _).
  rewrite Hput in Hset. cbn [mbind outcome_bind] in Hset.
  destruct (evictLoop_elems _ _ _ Hset) as [Helems Hsub].
  unfold Cache_put, elemEntry in Hput. rewrite Hk, Hent in Hput.
  injection Hput as <-. cbn [elems evictList] in *.
  rewrite Hkey in Helems, Hwf1.
  assert (Hnew : elems c' !! e = Some {| key := k; value := v; size := s |}).
  { rewrite Helems. by rewrite lookup_insert_eq. }
  assert (He1 : e ∈ MoveToFront e (evictList c)).
  { unfold MoveToFront. rewrite decide_True by done. left. }
  repeat split.
  - destruct (WF_entry_store c' {| key := k; value := v; size := s |} Hwf')
      as (e0 & Hs0 & Hent0); [rewrite Hentries; left|].
    cbn [key] in Hs0. rewrite Hs0. f_equal.
    destruct (wf_store_list c' Hwf' k e0 Hs0) as (He0 & _).
    eapply (WF_key_inj _ e0 e _ _ Hwf1); cbn [elems evictList].
    + by apply Hsub.
    + done.
    + rewrite <- Helems. exact Hent0.
    + by rewrite lookup_insert_eq.
    + done.
  - done.
  - by rewrite Hentries.
  - pose proof (seq_evictLoop_prefix _ _ _ _ Hes') as (n & Hn & _).
    rewrite Hentries, Hn, length_take. unfold seq_put.
    pose proof (withoutKey_perm (entries c) ent (WF_keys_NoDup c Hwf) Hin)
      as Hperm.
    apply Permutation_length in Hperm. rewrite Hkey in Hperm.
    simpl in *. lia.
Qed.

(** X12. [Set] of one key never changes the value of another: a value that
    [Get] finds for another key after the [Set] is the value it found for
    that key before. *)
Theorem Set_leaves_other_values fuel m k v c c' k' v' :
  reachable ValueOfKey ValueOfValue zero c →
  Cache_Set ValueOfKey ValueOfValue fuel m k v c = Done c' →
  k' ≠ k →
  fst <$> Cache_Get zero k' c' = Done (v', true) →
  fst <$> Cache_Get zero k' c = Done (v', true).
Proof.
  intros Hwf%reachable_WF Hset Hne.
  destruct (Set_WF _ _ _ _ _ _ _ _ Hwf Hset) as [Hwf' _].
  destruct (Set_entries_Done _ _ _ _ _ _ Hwf Hset) as (s & _ & Hloop).
  destruct (seq_evictLoop_prefix _ _ _ _ Hloop) as (n & Hn & _).
  rewrite !Get_fst by done.
  destruct (seq_find k' (entries c')) as [ent|] eqn:Hfind; [|done].
  intros [= <-]. destruct (seq_find_Some _ _ _ Hfind) as [Hin Hkey].
  rewrite Hn in Hin. apply subseteq_take in Hin. unfold seq_put in Hin.
  apply elem_of_cons in Hin as [->|Hin]; [done|].
  apply list_elem_of_filter in Hin as [_ Hin].
  rewrite <- Hkey, (seq_find_elem _ ent); [done|by apply WF_keys_NoDup|done].
Qed.

(** X13. The capacity is fixed by [New]: after any sequence of public
    operations it is what [New] stored, the product of [maxMB] and
    1024 * 1024 as an [int64] holds it. *)
Theorem capacity_never_changes maxMB ops c0 c :
  New maxMB = Done c0 →
  runOps ValueOfKey ValueOfValue zero ops c0 = Done c →
  maxSize c = Int64.wrap (maxMB * 1024 * 1024)
  ∧ reachable ValueOfKey ValueOfValue zero c.
Proof.
  intros Hnew Hrun.
  assert (Hreach0 : reachable ValueOfKey ValueOfValue zero c0)
    by (by eapply reach_New).
  assert (Hmax0 : maxSize c0 = Int64.wrap (maxMB * 1024 * 1024)).
  { unfold New in Hnew. case_decide; [done|]. injection Hnew as <-.
    cbn [maxSize]. unfold Int64.mul. apply wrap_mul_l. }
  rewrite <- Hmax0. clear Hnew Hmax0.
  revert c0 Hreach0 Hrun.
  induction ops as [|op ops IH]; intros c0 Hreach0 Hrun; simpl in Hrun.
  - by injection Hrun as <-.
  - apply bind_Done in Hrun as (c1 & Hstep & Hrun).
    assert (Hreach1 : reachable ValueOfKey ValueOfValue zero c1)
      by (by eapply reach_step).
    destruct (IH c1 Hreach1 Hrun) as [-> ?]. split; [|done].
    pose proof (reachable_WF _ _ _ _ Hreach0) as Hwf.
    destruct op as [fuel m k v|k|k]; simpl in Hstep.
    + by destruct (Set_WF _ _ _ _ _ _ _ _ Hwf Hstep).
    + destruct (Get_spec zero k c0 Hwf) as (c' & Hget & _ & Hmax & _).
      rewrite Hget in Hstep. by injection Hstep as <-.
    + destruct (Delete_spec k c0 Hwf) as (c' & Hdel & _ & Hmax & _).
      congruence.
Qed.

(** X14. In every state in which index and list are in bijection and the
    total is the sum of the sizes, the states inside [Set] with the total
    above the capacity among them, [evict] does nothing to an empty list;
    otherwise it takes out the last entry of the list, the least recently
    used one, takes its key out of the index, and lowers the running total
    by its recorded size. *)
Theorem evict_removes_least_recent c :
  WF c →
  (evictList c = [] → Cache_evict c = Done c)
  ∧ (∀ ent, last (entries c) = Some ent →
       ∃ c', Cache_evict c = Done c'
             ∧ entries c' = removelast (entries c)
             ∧ store c' = delete (key ent) (store c)
             ∧ currSize c' = Int64.sub (currSize c) (size ent)
             ∧ Cache_Get zero (key ent) c' = Done (zero, false, c')).
Proof.
  intros Hwf. split.
  - intros Hempty. unfold Cache_evict. by rewrite Hempty.
  - intros ent Hlast.
    destruct (evict_WF c Hwf) as (c' & Hev & Hwf' & _ & Hes).
    exists c'. split; [done|]. split; [done|].
    unfold Cache_evict, Back in Hev.
    destruct (last (evictList c)) as [e|] eqn:Hl.
    + destruct (WF_entries_last c e Hwf Hl) as (ent' & Hent' & Hlast').
      assert (ent' = ent) as -> by congruence.
      unfold elemEntry in Hev. rewrite Hent' in Hev. injection Hev as <-.
      split; [done|]. split; [done|].
      unfold Cache_Get. cbn [store]. by rewrite lookup_delete_eq.
    + apply last_None in Hl. unfold entries in Hlast. by rewrite Hl in Hlast.
Qed.

End SetEvict.

(** ** The size estimator on each shape *)

Lemma forEach_no_Panic {A} (body : A → Z → outcome Z) xs acc :
  (∀ x a, x ∈ xs → body x a ≠ Panic) → forEach body xs acc ≠ Panic.
Proof.
  revert acc. induction xs as [|x xs IH]; intros acc Hbody; [done|].
  simpl. pose proof (Hbody x acc (list_elem_of_here _ _)) as Hx.
  destruct (body x acc); simpl; [|done..].
  apply IH. intros; apply Hbody. by right.
Qed.

(** A loop over the indices of [xs] that reads each element with a getter
    is a loop over [xs]. *)
Lemma forEach_seq {A} (get : nat → outcome A) (F : A → Z → outcome Z)
    (xs : list A) (i0 : nat) (acc : Z) :
  (∀ i x, xs !! i = Some x → get (i0 + i)%nat = Done x) →
  forEach (λ i size, x ← get i; F x size) (seq i0 (length xs)) acc
  = forEach F xs acc.
Proof.
  revert i0 acc. induction xs as [|x xs IH]; intros i0 acc Hget; [done|].
  simpl. pose proof (Hget 0%nat x eq_refl) as H0.
  rewrite Nat.add_0_r in H0. rewrite H0. simpl.
  destruct (F x acc) as [acc'| |]; simpl; [|done..].
  apply IH. intros i y Hy.
  replace (S i0 + i)%nat with (i0 + S i)%nat by lia. by apply Hget.
Qed.

Lemma forEach_sum {A} (g : A → outcome Z) (xs : list A) (zs : list Z) acc :
  Forall2 (λ x z, g x = Done z) xs zs →
  Int64.inRange acc →
  forEach (λ x size, s ← g x; Done (Int64.add size s)) xs acc
  = Done (Int64.wrap (acc + Int64.sumZ zs)).
Proof.
  intros Hall. revert acc.
  induction Hall as [|x z xs zs Hx Hall IH]; intros acc Hacc.
  - simpl. by rewrite Z.add_0_r, wrap_id.
  - simpl. rewrite Hx. simpl. rewrite IH by apply wrap_inRange.
    unfold Int64.add. rewrite wrap_add_l. do 2 f_equal. lia.
Qed.

Lemma zero_inRange : Int64.inRange 0.
Proof. unfold Int64.inRange, Int64.min, Int64.max. lia. Qed.

(** X15. If every pointer of the memory and of the value refers to a
    variable, [calculateSize] does not panic, whatever the value and the
    budget: no reflect call in it is made on a kind that does not have it,
    and no index is out of range. *)
Theorem calculateSize_never_panics fuel m v :
  reflect.closed m →
  reflect.resolves m v = true →
  calculateSize fuel m v ≠ Panic.
Proof.
  intros Hm. revert v. induction fuel as [|fuel IH]; intros v Hv; [done|].
  assert (Hidx : ∀ xs (get : nat → outcome reflect.Value) acc,
    (∀ i x, xs !! i = Some x → get i = Done x) →
    forallb (reflect.resolves m) xs = true →
    forEach (λ i size, x ← get i; s ← calculateSize fuel m x;
                       Done (Int64.add size s))
      (seq 0 (length xs)) acc ≠ Panic).
  { intros xs get acc Hget Hxs. apply forEach_no_Panic.
    intros i a Hi. apply seq_lookup_elem in Hi as (x & Hx & Hin).
    rewrite (Hget _ _ Hx). simpl.
    pose proof (IH x (forallb_elem_of _ _ _ Hxs Hin)) as Hne.
    by destruct (calculateSize fuel m x). }
  destruct v as [|p|[a|]|[x|]|s|cap xs|kvs|fs|xs]; simpl in *; try done.
  - by destruct p.
  - apply bool_decide_eq_true in Hv as [x Hx]. rewrite Hx. simpl.
    pose proof (IH x (Hm _ _ Hx)) as Hne.
    by destruct (calculateSize fuel m x).
  - pose proof (IH x Hv) as Hne. by destruct (calculateSize fuel m x).
  - apply Hidx; [|done]. intros i x Hx. by rewrite Hx.
  - apply forEach_no_Panic. intros [k x] a Hin.
    pose proof (forallb_elem_of _ _ _ Hv Hin) as Hkx. simpl in Hkx.
    apply andb_true_iff in Hkx as [Hk Hx]. simpl.
    pose proof (IH k Hk) as Hnek. pose proof (IH x Hx) as Hnex.
    destruct (calculateSize fuel m k); simpl; try done.
    by destruct (calculateSize fuel m x).
  - apply Hidx; [|done]. intros i x Hx. by rewrite Hx.
  - apply Hidx; [|done]. intros i x Hx. by rewrite Hx.
Qed.

(** X16. The estimate of a struct is the sum of the estimates of its
    fields, that of an array the sum of the estimates of its elements, with
    nothing added; that of a slice is 8 for the header, 16 for each place of
    its capacity, and the estimates of its elements. The sums are those of
    an [int64]. *)
Theorem calculateSize_sums_elements fuel m xs zs :
  Forall2 (λ x z, calculateSize fuel m x = Done z) xs zs →
  calculateSize (S fuel) m (reflect.VStruct xs) = Done (Int64.sum zs)
  ∧ calculateSize (S fuel) m (reflect.VArray xs) = Done (Int64.sum zs)
  ∧ ∀ cap, calculateSize (S fuel) m (reflect.VSlice cap xs)
           = Done (Int64.wrap (8 + cap * 16 + Int64.sumZ zs)).
Proof.
  intros Hall.
  assert (Hloop : ∀ acc, Int64.inRange acc →
    forEach (λ i size, x ← match xs !! i with
                           | Some x => Done x
                           | None => Panic
                           end;
                       s ← calculateSize fuel m x; Done (Int64.add size s))
      (seq 0 (length xs)) acc
    = Done (Int64.wrap (acc + Int64.sumZ zs))).
  { intros acc Hacc.
    rewrite (forEach_seq _ (λ x size, s ← calculateSize fuel m x;
                                      Done (Int64.add size s)) xs 0).
    - by apply forEach_sum.
    - intros i x Hx. simpl. by rewrite Hx. }
  cbn [calculateSize reflect.Kind_of reflect.NumField reflect.Field
         reflect.Len reflect.Cap reflect.Index mbind outcome_bind].
  rewrite !Hloop by (apply zero_inRange || apply wrap_inRange).
  rewrite sum_wrap. repeat split. intros cap.
  rewrite Hloop by apply wrap_inRange.
  unfold Int64.add, Int64.mul, unsafe.Sizeof_uintptr, unsafe.Sizeof_interface.
  rewrite wrap_add_l.
  replace (8 + Int64.wrap (cap * 16) + Int64.sumZ zs)
    with (8 + Int64.sumZ zs + Int64.wrap (cap * 16)) by lia.
  rewrite wrap_add_r. do 2 f_equal. lia.
Qed.

(** X17. The estimate of a map is 8 for the header and, for each key, the
    estimates of the key and of its value. *)
Theorem calculateSize_sums_map fuel m kvs zs :
  Forall2 (λ kv z, ∃ zk zv, calculateSize fuel m kv.1 = Done zk
                            ∧ calculateSize fuel m kv.2 = Done zv
                            ∧ z = Int64.add zk zv) kvs zs →
  calculateSize (S fuel) m (reflect.VMap kvs)
  = Done (Int64.wrap (8 + Int64.sumZ zs)).
Proof.
  intros Hall.
  cbn [calculateSize reflect.Kind_of reflect.MapItems mbind outcome_bind].
  assert (Hloop : ∀ acc, Int64.inRange acc →
    forEach (λ kv size, a ← calculateSize fuel m kv.1;
                        b ← calculateSize fuel m kv.2;
                        Done (Int64.add size (Int64.add a b))) kvs acc
    = Done (Int64.wrap (acc + Int64.sumZ zs))).
  { induction Hall as [|kv z kvs zs (zk & zv & Hk & Hv & ->) Hall IH];
      intros acc Hacc.
    - simpl. by rewrite Z.add_0_r, wrap_id.
    - simpl. rewrite Hk. simpl. rewrite Hv. simpl.
      rewrite IH by apply wrap_inRange.
      unfold Int64.add at 1. rewrite wrap_add_l. do 2 f_equal. lia. }
  apply Hloop.
  unfold Int64.inRange, Int64.min, Int64.max, unsafe.Sizeof_uintptr. lia.
Qed.

(** X18. A slice of [n] values of a plain kind (booleans, numbers,
    channels, functions) with capacity [cap] is estimated at
    [8 + 16 * cap + 16 * n], whatever the kind: each element counts as the
    16 bytes of an interface value. *)
Theorem calculateSize_plain_slice fuel m cap (ps : list reflect.Plain) :
  calculateSize (S (S fuel)) m (reflect.VSlice cap (reflect.VPlain <$> ps))
  = Done (Int64.wrap (8 + cap * 16 + 16 * Z.of_nat (length ps))).
Proof.
  destruct (calculateSize_sums_elements (S fuel) m (reflect.VPlain <$> ps)
              ((λ _, 16) <$> ps)) as (_ & _ & ->).
  - apply Forall2_fmap, Forall_Forall2_diag, Forall_forall.
    intros p _. by destruct p.
  - do 3 f_equal. induction ps as [|p ps IH]; [done|].
    rewrite fmap_cons, sumZ_cons, IH. simpl length. lia.
Qed.

(** ** Set does not panic *)

Section SetSafe.

Context {Key Value : Type} `{Countable Key}.
Variable ValueOfKey : Key → reflect.Value.
Variable ValueOfValue : Value → reflect.Value.
Variable zero : Value.

Lemma seq_evictLoop_no_Panic fuel cap
    (es : list (entry (Key := Key) (Value := Value))) :
  seq_evictLoop fuel cap es ≠ Panic.
Proof.
  revert es. induction fuel as [|fuel IH]; intros es;
    rewrite seq_evictLoop_unfold; case_decide; done.
Qed.

(** X19. In a running program, where every pointer that is not nil refers
    to a variable, [Set] does not panic, whatever the cache, the key, the
    value and the budget; a value that reaches itself makes it run without
    end, not panic. *)
Theorem Set_never_panics fuel m k v (c : Cache (Key := Key) (Value := Value)) :
  reachable ValueOfKey ValueOfValue zero c →
  reflect.closed m →
  reflect.resolves m (ValueOfKey k) = true →
  reflect.resolves m (ValueOfValue v) = true →
  Cache_Set ValueOfKey ValueOfValue fuel m k v c ≠ Panic.
Proof.
  intros Hwf%reachable_WF Hm Hk Hv Hpanic.
  pose proof (entries_Set ValueOfKey ValueOfValue fuel m k v c Hwf) as Heq.
  rewrite Hpanic in Heq. unfold calculateEntrySize in Heq.
  pose proof (calculateSize_never_panics fuel m _ Hm Hk) as Hnk.
  pose proof (calculateSize_never_panics fuel m _ Hm Hv) as Hnv.
  destruct (calculateSize fuel m (ValueOfKey k)); try done.
  destruct (calculateSize fuel m (ValueOfValue v)); try done.
  simpl in Heq. symmetry in Heq. by apply seq_evictLoop_no_Panic in Heq.
Qed.

End SetSafe.

(** ** Entries of one size *)

Section Uniform.

Context {Key Value : Type} `{Countable Key}.

Implicit Types (es : list (entry (Key := Key) (Value := Value))).

Lemma sumZ_uniform s es :
  Forall (λ x, size x = s) es →
  Int64.sumZ (size <$> es) = Z.of_nat (length es) * s.
Proof.
  induction 1 as [|x es Hx _ IH]; [done|].
  rewrite fmap_cons, sumZ_cons, IH, Hx. simpl length. lia.
Qed.


End Uniform.

(** ** The cache of [govault/cache.go] *)

Section CacheGo.

Context {Key Value : Type} `{Countable Key}.
Variable Sizeof_Key Sizeof_Value : Z.
Variable zero : Value.

Implicit Types (c : Cache (Key := Key) (Value := Value)).

Local Abbreviation entrySize := (Int64.add Sizeof_Key Sizeof_Value).

Lemma cache_go_Set_spec fuel k v c :
  WF c →
  entries <$> cache_go.Cache_Set Sizeof_Key Sizeof_Value fuel k v c
  = seq_evictLoop fuel (maxSize c) (seq_put k v entrySize (entries c))
  ∧ ∀ c', cache_go.Cache_Set Sizeof_Key Sizeof_Value fuel k v c = Done c' →
          WF c' ∧ maxSize c' = maxSize c.
Proof.
  intros Hwf. unfold cache_go.Cache_Set, cache_go.calculateEntrySize.
  destruct (put_WF k v entrySize c Hwf) as (c1 & -> & Hwf1 & Hmax & Hes).
  cbn [mbind outcome_bind].
  destruct (entries_evictLoop fuel c1 Hwf1) as [-> Hloop].
  rewrite Hmax, Hes. split; [done|].
  intros c' Hc'. destruct (Hloop c' Hc'). split; congruence.
Qed.

Lemma seq_put_sizes k v s (es : list (entry (Key := Key) (Value := Value))) :
  Forall (λ x, size x = s) es → Forall (λ x, size x = s) (seq_put k v s es).
Proof.
  intros Hall. apply Forall_cons. split; [done|].
  apply Forall_forall. intros x [_ Hx]%list_elem_of_filter.
  by eapply Forall_forall in Hall.
Qed.

(** What every cache of [govault/cache.go] satisfies, with the capacity it
    was made with. *)
Lemma cache_go_reachable_inv c :
  cache_go.reachable Sizeof_Key Sizeof_Value zero c →
  WF c ∧ Forall (λ x, size x = entrySize) (entries c).
Proof.
  induction 1 as [maxMB c Hnew|op c c' _ [Hwf Hall] Hstep].
  - split; [by eapply New_WF|].
    unfold New in Hnew. case_decide; [done|]. by injection Hnew as <-.
  - destruct op as [fuel k v|k|k]; simpl in Hstep.
    + destruct (cache_go_Set_spec fuel k v c Hwf) as [Heq Hk].
      destruct (Hk c' Hstep) as [Hwf' _]. split; [done|].
      rewrite Hstep in Heq. cbn [fmap outcome_fmap] in Heq. symmetry in Heq.
      destruct (seq_evictLoop_prefix _ _ _ _ Heq) as (n & -> & _).
      by apply Forall_take, seq_put_sizes.
    + destruct (Get_spec zero k c Hwf) as (c1 & Hget & Hwf1 & _ & Hes).
      rewrite Hget in Hstep. injection Hstep as <-. split; [done|].
      rewrite Hes. unfold seq_touch.
      destruct (seq_find k (entries c)) as [ent|] eqn:Hfind; [|done].
      destruct (seq_find_Some _ _ _ Hfind) as [Hin _].
      apply Forall_cons. split; [by eapply Forall_forall in Hall|].
      apply Forall_forall. intros x [_ Hx]%list_elem_of_filter.
      by eapply Forall_forall in Hall.
    + destruct (Delete_spec k c Hwf) as (c1 & Hdel & Hwf1 & _ & Hes).
      assert (c1 = c') as -> by congruence. split; [done|].
      rewrite Hes. apply Forall_forall.
      intros x [_ Hx]%list_elem_of_filter. by eapply Forall_forall in Hall.
Qed.

(** X20. In the cache of [govault/cache.go] index and list are in bijection
    and the running total is the sum of the recorded sizes, as in
    [govault.go]; every entry is recorded with the same size, the sum of
    the sizes of the key type and of the value type, so the running total
    is the number of entries times that sum. *)
Theorem cache_go_counts_entries c :
  cache_go.reachable Sizeof_Key Sizeof_Value zero c →
  WF c
  ∧ Forall (λ x, size x = Int64.add Sizeof_Key Sizeof_Value) (entries c)
  ∧ currSize c
    = Int64.wrap (Z.of_nat (length (entries c)) * (Sizeof_Key + Sizeof_Value)).
Proof.
  intros [Hwf Hall]%cache_go_reachable_inv. split; [done|]. split; [done|].
  rewrite (wf_size c Hwf). unfold sumSizes.
  rewrite sum_wrap, (sumZ_uniform entrySize) by done.
  unfold Int64.add. rewrite Z.mul_comm, wrap_mul_l. f_equal. lia.
Qed.



End CacheGo.

(** ** The example program *)

Section MainProgram.

Import Examples.

Local Ltac fields :=
  cbn [store elems evictList maxSize currSize key value size].

Local Ltac sizes :=
  unfold Int64.inRange, Int64.min, Int64.max;
  rewrite ?fmap_cons, ?fmap_nil, ?sumZ_cons; fields;
  change (Int64.sumZ []) with 0; lia.

Local Ltac side := fields; first [congruence | intros Hn; by apply Hn].

Local Ltac filters :=
  repeat first [rewrite filter_cons_True by side
               |rewrite filter_cons_False by side];
  rewrite ?filter_nil.

Local Ltac loop_stops :=
  rewrite seq_evictLoop_unfold, sum_exact by sizes;
  rewrite decide_False by sizes; reflexivity.

Local Ltac loop_auto :=
  unfold seq_put, withoutKey; filters;
  first [loop_stops
        |rewrite seq_evictLoop_unfold, sum_exact by sizes;
         rewrite decide_True by sizes; cbn [removelast]; loop_stops].

Local Ltac get_step Hg Hes :=
  unfold seq_touch, seq_find in Hg, Hes; revert Hg Hes;
  filters; cbn [head]; unfold withoutKey; filters; fields; intros Hg Hes.

Lemma calculateEntrySize_strings fuel m (k text : string) :
  32 + Z.of_nat (String.length k) + Z.of_nat (String.length text)
  ≤ Int64.max →
  calculateEntrySize ValueOf_string ValueOf_string (S fuel) m k text
  = Done (32 + Z.of_nat (String.length k) + Z.of_nat (String.length text)).
Proof.
  intros Hlen. unfold calculateEntrySize, ValueOf_string.
  cbn [calculateSize reflect.Kind_of reflect.String_of mbind outcome_bind].
  unfold Int64.add, unsafe.Sizeof_string.
  rewrite wrap_add_l, wrap_add_r, wrap_id; [f_equal; lia|].
  unfold Int64.inRange, Int64.min, Int64.max in *. lia.
Qed.

(** X22. What the example program prints is decided by the length of
    [oneMBText]. Each entry is estimated at 33 bytes more than the text,
    and the cache holds 3 MB. After the first three [Set]s, "c" is found
    if one entry fits (the text has 3145695 bytes at most), "b" if two fit
    (1572831) and "a" if three fit (1048543). "d" is found after its [Set]
    if one entry fits, and "a" is still found after that only if four
    entries fit (786399). A text of 1048576 bytes prints
    a: false, b: true, c: true, d: true, a: false. *)
Theorem main_prints text fuel :
  (1 ≤ fuel)%nat →
  Z.of_nat (String.length text) ≤ 2 ^ 60 →
  main text fuel
  = Done [Println "a:" (bool_decide (Z.of_nat (String.length text) ≤ 1048543));
          Println "b:" (bool_decide (Z.of_nat (String.length text) ≤ 1572831));
          Println "c:" (bool_decide (Z.of_nat (String.length text) ≤ 3145695));
          Println "d:" (bool_decide (Z.of_nat (String.length text) ≤ 3145695));
          Println "a:" (bool_decide (Z.of_nat (String.length text) ≤ 786399))].
Proof.
  intros Hfuel Hlen. destruct fuel as [|f]; [lia|]. clear Hfuel.
  assert (Hcalc : ∀ k : string, String.length k = 1%nat →
    calculateEntrySize ValueOf_string ValueOf_string (S f) ∅ k text
    = Done (33 + Z.of_nat (String.length text))).
  { intros k Hk. rewrite calculateEntrySize_strings; rewrite Hk;
      [f_equal; lia|unfold Int64.max; lia]. }
  pose proof (Hcalc "a"%string eq_refl) as Ha.
  pose proof (Hcalc "b"%string eq_refl) as Hb.
  pose proof (Hcalc "c"%string eq_refl) as Hc.
  pose proof (Hcalc "d"%string eq_refl) as Hd.
  clear Hcalc. unfold main.
  assert (HL : 0 ≤ Z.of_nat (String.length text)) by lia.
  revert Ha Hb Hc Hd Hlen HL.
  generalize (Z.of_nat (String.length text)) as L.
  intros L Ha Hb Hc Hd Hlen HL.
  set (c0 := {| store := ∅; elems := ∅; evictList := [];
                maxSize := 3145728; currSize := 0 |}
             : Cache (Key := string) (Value := string)).
  change (New 3) with (Done c0). cbn [mbind outcome_bind].
  assert (Hwf0 : WF c0) by (by apply (New_WF 3)).
  assert (Hes0 : entries c0 = []) by done.
  assert (Hm0 : maxSize c0 = 3145728) by done.
  destruct (decide (L ≤ 786399)) as [H4|H4];
    destruct (decide (L ≤ 1048543)) as [H3|H3];
    destruct (decide (L ≤ 1572831)) as [H2|H2];
    destruct (decide (L ≤ 3145695)) as [H1|H1]; try lia.
  all: rewrite ?(bool_decide_eq_true_2 (L ≤ 786399)),
         ?(bool_decide_eq_true_2 (L ≤ 1048543)),
         ?(bool_decide_eq_true_2 (L ≤ 1572831)),
         ?(bool_decide_eq_true_2 (L ≤ 3145695)) by done;
       rewrite ?(bool_decide_eq_false_2 (L ≤ 786399)),
         ?(bool_decide_eq_false_2 (L ≤ 1048543)),
         ?(bool_decide_eq_false_2 (L ≤ 1572831)),
         ?(bool_decide_eq_false_2 (L ≤ 3145695)) by done.
  all: edestruct (Set_step ValueOf_string ValueOf_string (S f) ∅ "a"%string
                    text (33 + L) c0) as (c1 & -> & Hwf1 & Hm1 & Hes1);
         [done|done|rewrite Hes0, Hm0; loop_auto|];
       cbn [mbind outcome_bind]; rewrite Hm0 in Hm1.
  all: edestruct (Set_step ValueOf_string ValueOf_string (S f) ∅ "b"%string
                    text (33 + L) c1) as (c2 & -> & Hwf2 & Hm2 & Hes2);
         [done|done|rewrite Hes1, Hm1; loop_auto|];
       cbn [mbind outcome_bind]; rewrite Hm1 in Hm2.
  all: edestruct (Set_step ValueOf_string ValueOf_string (S f) ∅ "c"%string
                    text (33 + L) c2) as (c3 & -> & Hwf3 & Hm3 & Hes3);
         [done|done|rewrite Hes2, Hm2; loop_auto|];
       cbn [mbind outcome_bind]; rewrite Hm2 in Hm3.
  all: destruct (Get_spec ""%string "a"%string c3 Hwf3)
         as (c4 & Hg & Hwf4 & Hm4 & Hes4);
       rewrite Hes3 in Hg, Hes4; get_step Hg Hes4; rewrite Hg; clear Hg;
       cbn [mbind outcome_bind]; rewrite Hm3 in Hm4.
  all: destruct (Get_spec ""%string "b"%string c4 Hwf4)
         as (c5 & Hg & Hwf5 & Hm5 & Hes5);
       rewrite Hes4 in Hg, Hes5; get_step Hg Hes5; rewrite Hg; clear Hg;
       cbn [mbind outcome_bind]; rewrite Hm4 in Hm5.
  all: destruct (Get_spec ""%string "c"%string c5 Hwf5)
         as (c6 & Hg & Hwf6 & Hm6 & Hes6);
       rewrite Hes5 in Hg, Hes6; get_step Hg Hes6; rewrite Hg; clear Hg;
       cbn [mbind outcome_bind]; rewrite Hm5 in Hm6.
  all: edestruct (Set_step ValueOf_string ValueOf_string (S f) ∅ "d"%string
                    text (33 + L) c6) as (c7 & -> & Hwf7 & _ & Hes7);
         [done|done|rewrite Hes6, Hm6; loop_auto|];
       cbn [mbind outcome_bind].
  all: destruct (Get_spec ""%string "d"%string c7 Hwf7)
         as (c8 & Hg & Hwf8 & _ & Hes8);
       rewrite Hes7 in Hg, Hes8; get_step Hg Hes8; rewrite Hg; clear Hg;
       cbn [mbind outcome_bind].
  all: destruct (Get_spec ""%string "a"%string c8 Hwf8)
         as (c9 & Hg & _ & _ & Hes9);
       rewrite Hes8 in Hg, Hes9; get_step Hg Hes9; rewrite Hg; clear Hg;
       cbn [mbind outcome_bind].
  all: reflexivity.
Qed.

End MainProgram.

(** ** The properties above on the examples *)

Section MoreRuns.

Import Examples.

Local Abbreviation VS := ValueOf_string.
Local Abbreviation VI := ValueOf_IntSlice.
Local Abbreviation get := (Cache_Get nilSlice).
Local Abbreviation reach :=
  (reachable ValueOf_string ValueOf_IntSlice nilSlice).

Lemma cache1_reachable : reach cache1.
Proof.
  apply (reach_step _ _ _ (OpSet 2 ∅ "key-1"%string oneToFive) cache0);
    [|reflexivity].
  apply (reach_New _ _ _ 10). reflexivity.
Qed.

Lemma cache2_reachable : reach cache2.
Proof.
  apply (reach_step _ _ _ (OpSet 2 ∅ "key-2"%string oneToFive) cache1);
    [|reflexivity].
  exact cache1_reachable.
Qed.

Lemma cacheGo1_reachable : cache_go.reachable 16 24 nilSlice cacheGo1.
Proof.
  apply (cache_go.reach_step 16 24 nilSlice
           (cache_go.OpSet 1 "key-1"%string oneToFive) cache1MB);
    [|reflexivity].
  apply (cache_go.reach_New 16 24 nilSlice 1). reflexivity.
Qed.

Lemma cacheA_reachable : reach cacheA.
Proof.
  apply (reach_step _ _ _ (OpSet 2 ∅ "a"%string (make0 40000)) cache1MB);
    [|reflexivity].
  apply (reach_New _ _ _ 1). reflexivity.
Qed.

(** The state inside [Set], between the insertion and the loop. *)
Lemma cacheAB_WF : WF cacheAB.
Proof.
  destruct (put_WF "b"%string (make0 40000) 640025 cacheA)
    as (c' & Hput & Hwf & _).
  - exact (reachable_WF _ _ _ _ cacheA_reachable).
  - assert (Hc : Cache_put "b"%string (make0 40000) 640025 cacheA
                 = Done cacheAB) by reflexivity.
    rewrite Hc in Hput. by injection Hput as <-.
Qed.

Lemma cacheFrame_reachable :
  reachable ValueOf_string ValueOf_Frame Frame0 cacheFrame.
Proof.
  apply (reach_step _ _ _ (OpSet 4 oneNode "a"%string frame1)
           {| store := ∅; elems := ∅; evictList := [];
              maxSize := 1048576; currSize := 0 |});
    [|reflexivity].
  apply (reach_New _ _ _ 1). reflexivity.
Qed.

Lemma oneNode_closed : reflect.closed oneNode.
Proof.
  intros a x Hx. unfold oneNode in Hx.
  apply lookup_singleton_Some in Hx as [<- <-]. reflexivity.
Qed.

Lemma selfLoop_closed : reflect.closed selfLoop.
Proof.
  intros a x Hx. unfold selfLoop in Hx.
  apply lookup_singleton_Some in Hx as [<- <-]. reflexivity.
Qed.

Lemma Get_finds_exactly_the_entries_witness :
  ("key-1"%string ∉ key <$> entries cache1 →
   get "key-1"%string cache1 = Done (nilSlice, false, cache1))
  ∧ (∀ ent, ent ∈ entries cache1 → key ent = "key-1"%string →
       ∃ c', get "key-1"%string cache1 = Done (value ent, true, c')).
Proof.
  apply (Get_finds_exactly_the_entries VS VI nilSlice cache1 "key-1"%string).
  exact cache1_reachable.
Defined.

Lemma Get_changes_order_only_witness :
  ∃ v b c', get "key-1"%string cache2 = Done (v, b, c')
    ∧ store c' = store cache2 ∧ elems c' = elems cache2
    ∧ currSize c' = currSize cache2 ∧ maxSize c' = maxSize cache2
    ∧ entries c' ≡ₚ entries cache2
    ∧ withoutKey "key-1"%string (entries c')
      = withoutKey "key-1"%string (entries cache2).
Proof.
  apply (Get_changes_order_only VS VI nilSlice cache2 "key-1"%string).
  exact cache2_reachable.
Defined.

Lemma Get_twice_witness :
  ∃ v b c', get "key-1"%string cache2 = Done (v, b, c')
            ∧ get "key-1"%string c' = Done (v, b, c').
Proof.
  apply (Get_twice VS VI nilSlice cache2 "key-1"%string).
  exact cache2_reachable.
Defined.

Lemma Get_leaves_other_keys_witness :
  ∃ r c', get "key-1"%string cache2 = Done (r, c')
          ∧ fst <$> get "key-2"%string c' = fst <$> get "key-2"%string cache2.
Proof.
  apply (Get_leaves_other_keys VS VI nilSlice cache2
           "key-2"%string "key-1"%string).
  exact cache2_reachable.
Defined.

Lemma Delete_then_gone_witness :
  ∃ c', Cache_Delete "key-1"%string cache2 = Done c'
        ∧ Cache_Delete "key-1"%string c' = Done c'
        ∧ get "key-1"%string c' = Done (nilSlice, false, c')
        ∧ ("key-1"%string ∉ key <$> entries cache2 → c' = cache2).
Proof.
  apply (Delete_then_gone VS VI nilSlice cache2 "key-1"%string).
  exact cache2_reachable.
Defined.

Lemma Delete_removes_one_entry_witness :
  ∃ c', Cache_Delete "key-1"%string cache2 = Done c'
        ∧ entries c' = withoutKey "key-1"%string (entries cache2)
        ∧ (length (entries c') + 1 = length (entries cache2))%nat
        ∧ currSize c' = Int64.sub (currSize cache2) 189
        ∧ store c' = delete "key-1"%string (store cache2)
        ∧ maxSize c' = maxSize cache2.
Proof.
  apply (Delete_removes_one_entry VS VI nilSlice cache2 "key-1"%string
           {| key := "key-1"%string; value := oneToFive; size := 189 |}).
  - exact cache2_reachable.
  - vm_compute. apply list_elem_of_further, list_elem_of_here.
  - reflexivity.
Defined.

Lemma Delete_leaves_other_keys_witness :
  ∃ c', Cache_Delete "key-1"%string cache2 = Done c'
        ∧ fst <$> get "key-2"%string c' = fst <$> get "key-2"%string cache2.
Proof.
  apply (Delete_leaves_other_keys VS VI nilSlice cache2
           "key-1"%string "key-2"%string).
  - exact cache2_reachable.
  - discriminate.
Defined.

Lemma Set_total_within_capacity_witness : currSize cache2 ≤ maxSize cache2.
Proof.
  apply (Set_total_within_capacity VS VI 2 ∅ "key-2"%string oneToFive
           cache1 cache2).
  reflexivity.
Defined.

(** [Set("b", ...)] on the cache that holds "a": the two entries come to
    1280050 bytes, above the capacity of 1048576, and "a" is evicted. *)
Lemma Set_evicts_least_recent_only_witness :
  ∃ n, entries cacheB
       = take n (seq_put "b"%string (make0 40000) 640025 (entries cacheA))
       ∧ ∀ j, (n < j ≤ length (seq_put "b"%string (make0 40000) 640025
                                  (entries cacheA)))%nat →
              Int64.sum (size <$> take j (seq_put "b"%string (make0 40000)
                                            640025 (entries cacheA)))
              > maxSize cacheA.
Proof.
  apply (Set_evicts_least_recent_only VS VI nilSlice 2 ∅).
  - exact cacheA_reachable.
  - reflexivity.
  - reflexivity.
Defined.

(** In that run one entry is left, and the beginning of length two is the
    one above the capacity. *)
Example Set_evicts_one_of_two :
  entries cacheB
  = take 1 (seq_put "b"%string (make0 40000) 640025 (entries cacheA))
  ∧ Int64.sum (size <$> take 2 (seq_put "b"%string (make0 40000) 640025
                                  (entries cacheA))) = 1280050
  ∧ maxSize cacheA = 1048576.
Proof. repeat split; reflexivity. Qed.

Lemma Set_keeps_all_when_it_fits_witness :
  ∃ c', Cache_Set VS VI 2 ∅ "key-2"%string oneToFive cache1 = Done c'
        ∧ entries c' = seq_put "key-2"%string oneToFive 189 (entries cache1)
        ∧ fst <$> get "key-2"%string c' = Done (oneToFive, true)
        ∧ ∀ k', k' ≠ "key-2"%string →
            fst <$> get k' c' = fst <$> get k' cache1.
Proof.
  apply (Set_keeps_all_when_it_fits VS VI nilSlice 2 ∅).
  - exact cache1_reachable.
  - reflexivity.
  - vm_compute. discriminate.
Defined.

Lemma Set_updates_in_place_witness :
  ∃ c', Cache_Set VS VI 2 ∅ "key-1"%string nilSlice cache2 = Done c'
        ∧ store c' !! "key-1"%string = Some 1%positive
        ∧ elems c' !! 1%positive
          = Some {| key := "key-1"%string; value := nilSlice; size := 29 |}
        ∧ head (entries c')
          = Some {| key := "key-1"%string; value := nilSlice; size := 29 |}
        ∧ (length (entries c') ≤ length (entries cache2))%nat.
Proof.
  apply (Set_updates_in_place VS VI nilSlice 2 ∅).
  - exact cache2_reachable.
  - reflexivity.
  - reflexivity.
  - vm_compute. discriminate.
  - simpl. lia.
Defined.

Lemma Set_leaves_other_values_witness :
  fst <$> get "key-1"%string cache1 = Done (oneToFive, true).
Proof.
  apply (Set_leaves_other_values VS VI nilSlice 2 ∅ "key-2"%string oneToFive
           cache1 cache2 "key-1"%string oneToFive).
  - exact cache1_reachable.
  - reflexivity.
  - discriminate.
  - reflexivity.
Defined.

Lemma capacity_never_changes_witness :
  maxSize cache2 = Int64.wrap (10 * 1024 * 1024) ∧ reach cache2.
Proof.
  apply (capacity_never_changes VS VI nilSlice 10
           [OpSet 2 ∅ "key-1"%string oneToFive; OpGet "key-1"%string;
            OpSet 2 ∅ "key-2"%string oneToFive] cache0 cache2).
  - reflexivity.
  - reflexivity.
Defined.

(** The state in which [Set] calls [evict]: two entries, the total above
    the capacity. *)
Lemma evict_removes_least_recent_witness :
  (evictList cacheAB = [] → Cache_evict cacheAB = Done cacheAB)
  ∧ (∀ ent, last (entries cacheAB) = Some ent →
       ∃ c', Cache_evict cacheAB = Done c'
             ∧ entries c' = removelast (entries cacheAB)
             ∧ store c' = delete (key ent) (store cacheAB)
             ∧ currSize c' = Int64.sub (currSize cacheAB) (size ent)
             ∧ get (key ent) c' = Done (nilSlice, false, c')).
Proof.
  apply (evict_removes_least_recent nilSlice cacheAB).
  exact cacheAB_WF.
Defined.

Example evict_inside_Set :
  maxSize cacheAB < currSize cacheAB
  ∧ Cache_evict cacheAB = Done cacheB.
Proof. split; reflexivity. Qed.

Lemma calculateSize_never_panics_witness :
  calculateSize 5 selfLoop (reflect.VPtr (Some 1%positive)) ≠ Panic.
Proof.
  apply (calculateSize_never_panics 5 selfLoop (reflect.VPtr (Some 1%positive))).
  - exact selfLoop_closed.
  - reflexivity.
Defined.

Lemma calculateSize_sums_elements_witness :
  calculateSize 2 ∅
    (reflect.VStruct [reflect.VPlain reflect.PInt; reflect.VString "ab"])
  = Done (Int64.sum [16; 18])
  ∧ calculateSize 2 ∅
      (reflect.VArray [reflect.VPlain reflect.PInt; reflect.VString "ab"])
    = Done (Int64.sum [16; 18])
  ∧ ∀ cap, calculateSize 2 ∅
             (reflect.VSlice cap
                [reflect.VPlain reflect.PInt; reflect.VString "ab"])
           = Done (Int64.wrap (8 + cap * 16 + Int64.sumZ [16; 18])).
Proof.
  apply (calculateSize_sums_elements 1 ∅
           [reflect.VPlain reflect.PInt; reflect.VString "ab"] [16; 18]).
  repeat constructor.
Defined.

Lemma calculateSize_sums_map_witness :
  calculateSize 2 ∅
    (reflect.VMap [(reflect.VString "k", reflect.VPlain reflect.PInt)])
  = Done (Int64.wrap (8 + Int64.sumZ [33])).
Proof.
  apply (calculateSize_sums_map 1 ∅
           [(reflect.VString "k", reflect.VPlain reflect.PInt)] [33]).
  constructor; [|constructor]. exists 17, 16. repeat split; reflexivity.
Defined.

(** A second [Set] of a [Frame] that points to a node: the estimator
    follows the pointer, the entry is inserted, and "a" is evicted. *)
Lemma Set_never_panics_witness :
  Cache_Set ValueOf_string ValueOf_Frame 4 oneNode "b"%string frame1
    cacheFrame
  ≠ Panic.
Proof.
  apply (Set_never_panics ValueOf_string ValueOf_Frame Frame0).
  - exact cacheFrame_reachable.
  - exact oneNode_closed.
  - reflexivity.
  - reflexivity.
Defined.

Example Set_of_Frame_evicts :
  ∃ c', Cache_Set ValueOf_string ValueOf_Frame 4 oneNode "b"%string frame1
          cacheFrame = Done c'
        ∧ key <$> entries c' = ["b"%string]
        ∧ currSize c' = 640041.
Proof. eexists. repeat split; reflexivity. Qed.

Lemma cache_go_counts_entries_witness :
  WF cacheGo1
  ∧ Forall (λ x, size x = Int64.add 16 24) (entries cacheGo1)
  ∧ currSize cacheGo1
    = Int64.wrap (Z.of_nat (length (entries cacheGo1)) * (16 + 24)).
Proof.
  apply (cache_go_counts_entries 16 24 nilSlice cacheGo1).
  exact cacheGo1_reachable.
Defined.


Lemma main_prints_witness :
  main "value_a" 1
  = Done [Println "a:" (bool_decide (Z.of_nat (String.length "value_a")
                                     ≤ 1048543));
          Println "b:" (bool_decide (Z.of_nat (String.length "value_a")
                                     ≤ 1572831));
          Println "c:" (bool_decide (Z.of_nat (String.length "value_a")
                                     ≤ 3145695));
          Println "d:" (bool_decide (Z.of_nat (String.length "value_a")
                                     ≤ 3145695));
          Println "a:" (bool_decide (Z.of_nat (String.length "value_a")
                                     ≤ 786399))].
Proof.
  apply (main_prints "value_a" 1).
  - lia.
  - simpl. lia.
Defined.

End MoreRuns.
